(** * Boolean retrieval: inverted index construction and query evaluation

    A shallow embedding of [main.py]: the character scan that fills the
    inverted index ([InvertedIndex.populate_inverted_index]) and the
    two-stack infix evaluator ([QueryEvaluator.evaluate]).

    Conventions.
    - A Python [str] is a [string]; a character is an [ascii], read as the
      code point of the same number (0..255).
    - A Python [dict] from terms to sets of document ids is a
      [gmap string (gset string)].
    - A Python [list] used as a stack ([append], [pop], [[-1]]) is a Rocq
      list whose HEAD is the Python list's LAST element.
    - [IndexError] (pop from an empty list, [[-1]] on an empty list) is the
      only exception the modelled code raises. *)

From Stdlib Require Import String Ascii NArith Bool.
From stdpp Require Import base option list gmap sets strings.

Local Open Scope string_scope.
Local Open Scope list_scope.

(** ** Python string primitives used by the scan *)

Module PyStr.

Definition ord (c : ascii) : N := N_of_ascii c.

Definition between (lo hi n : N) : bool := (lo <=? n)%N && (n <=? hi)%N.

(** [str.isnumeric] on one character: the decimal digits, the
    superscripts 2, 3, 1 and the vulgar fractions 1/4, 1/2, 3/4. *)
Definition isnumeric (c : ascii) : bool :=
  let n := ord c in
  between 48 57 n || (n =? 178)%N || (n =? 179)%N || (n =? 185)%N
  || between 188 190 n.

(** [str.isalpha] on one character: the letters below code point 256. *)
Definition isalpha (c : ascii) : bool :=
  let n := ord c in
  between 65 90 n || between 97 122 n
  || (n =? 170)%N || (n =? 181)%N || (n =? 186)%N
  || between 192 214 n || between 216 246 n || between 248 255 n.

(** [str.isspace] on one character: what [str.strip] removes. *)
Definition isspace (c : ascii) : bool :=
  let n := ord c in
  between 9 13 n || between 28 32 n || (n =? 133)%N || (n =? 160)%N.

Fixpoint lstrip (s : string) : string :=
  match s with
  | EmptyString => EmptyString
  | String c s' => if isspace c then lstrip s' else s
  end.

Fixpoint rstrip (s : string) : string :=
  match s with
  | EmptyString => EmptyString
  | String c s' =>
      let r := rstrip s' in
      if isspace c && String.eqb r "" then EmptyString else String c r
  end.

Definition strip (s : string) : string := rstrip (lstrip s).

End PyStr.

(** ** class InvertedIndex *)

Module InvertedIndex.
Import PyStr.

(** What the markup parser hands over: an element with its [.text], and a
    document with its [DOCID] and the results of [find_all] for the three
    tags. *)
Record element := { text : string }.

Record document := {
  DOCID : element;
  TITLE : list (option element);
  HEADING : list (option element);
  TEXT : list (option element)
}.

(** [collect_content]: [res += elem.text] for each [elem] that is not
    [None]. *)
Fixpoint collect_content (container : list (option element)) : string :=
  match container with
  | [] => ""
  | Some elem :: rest => text elem +:+ collect_content rest
  | None :: rest => collect_content rest
  end.

(** Lines 51-56: add [doc_id] to the set of [term], creating the set
    first when [term] is not yet a key. *)
Definition add_posting (term doc_id : string) (inverted_index : gmap string (gset string))
  : gmap string (gset string) :=
  match inverted_index !! term with
  | Some postings => <[term := postings ∪ {[doc_id]}]> inverted_index
  | None => <[term := ∅ ∪ {[doc_id]}]> inverted_index
  end.

(** Lines 44-58: the loop [for char in content], with the loop-carried
    variable [term] and the index. The value of [term] when the loop ends
    is returned too; the source does nothing with it. *)
Fixpoint scan (content : string) (doc_id : string) (term : string)
    (inverted_index : gmap string (gset string))
  : string * gmap string (gset string) :=
  match content with
  | EmptyString => (term, inverted_index)
  | String char rest =>
      if isnumeric char || isalpha char then
        scan rest doc_id (term +:+ String char "") inverted_index
      else if String.eqb (strip term) "" then
        scan rest doc_id term inverted_index
      else
        scan rest doc_id "" (add_posting term doc_id inverted_index)
  end.

(** Lines 38-41. *)
Definition content_of (d : document) : string :=
  (("" +:+ collect_content (TITLE d)) +:+ collect_content (HEADING d))
    +:+ collect_content (TEXT d).

Definition populate_inverted_index (inverted_index : gmap string (gset string))
    (d : document) (doc_id : string) : gmap string (gset string) :=
  snd (scan (content_of d) doc_id "" inverted_index).

Definition generate_inverted_index (inverted_index : gmap string (gset string))
    (documents : list document) : gmap string (gset string) :=
  fold_left (fun idx d => populate_inverted_index idx d (text (DOCID d)))
            documents inverted_index.

(** [__init__]: every file of the directory except ["czech.dtd"], each
    given as its name and the [DOC] elements parsed from it. *)
Definition init (files : list (string * list document)) : gmap string (gset string) :=
  fold_left (fun idx f =>
               if String.eqb (fst f) "czech.dtd" then idx
               else generate_inverted_index idx (snd f))
            files ∅.

(** The terms for which the loop of [scan] reaches the insertion (lines
    51-56), in order, and the accumulator left over at the end. *)
Fixpoint emitted (content : string) (term : string) : list string * string :=
  match content with
  | EmptyString => ([], term)
  | String char rest =>
      if isnumeric char || isalpha char then
        emitted rest (term +:+ String char "")
      else if String.eqb (strip term) "" then
        emitted rest term
      else
        let '(ts, final) := emitted rest "" in (term :: ts, final)
  end.

Definition terms_of (content : string) : list string := fst (emitted content "").

(** The tokenizer as the specification words it (section 4.1): a
    candidate is also emitted when the END OF INPUT is reached. Used only
    to compare with [emitted]. *)
Fixpoint spec_tokenize_from (content : string) (candidate : string) : list string :=
  match content with
  | EmptyString =>
      if String.eqb (strip candidate) "" then [] else [candidate]
  | String char rest =>
      if isnumeric char || isalpha char then
        spec_tokenize_from rest (candidate +:+ String char "")
      else if String.eqb (strip candidate) "" then
        spec_tokenize_from rest ""
      else
        candidate :: spec_tokenize_from rest ""
  end.

Definition spec_tokenize (content : string) : list string :=
  spec_tokenize_from content "".

(** A field text that is empty or ends in a character that is neither
    numeric nor alphabetic. *)
Fixpoint terminated (s : string) : bool :=
  match s with
  | EmptyString => true
  | String c EmptyString => negb (isnumeric c || isalpha c)
  | String _ s' => terminated s'
  end.

(** The buffer [content] when the field texts are appended in the order
    of the list [texts] ([content = ""], then [content += t] for each). *)
Definition content_in_order (texts : list string) : string :=
  fold_left (fun content t => content +:+ t) texts "".

(** The three field texts of a document, in the order of lines 39-41. *)
Definition field_texts (d : document) : list string :=
  [collect_content (TITLE d); collect_content (HEADING d);
   collect_content (TEXT d)].

(** A string of numeric and alphabetic characters only. *)
Fixpoint alnum_only (s : string) : bool :=
  match s with
  | EmptyString => true
  | String c s' => (isnumeric c || isalpha c) && alnum_only s'
  end.

(** [D] is in the postings of [T]. *)
Definition posted (inverted_index : gmap string (gset string)) (T D : string)
  : Prop :=
  exists s, inverted_index !! T = Some s /\ D ∈ s.

(** No key of the index maps to the empty set. *)
Definition no_empty_entry (inverted_index : gmap string (gset string)) : Prop :=
  forall T s, inverted_index !! T = Some s -> s <> ∅.

End InvertedIndex.

(** ** Exceptions *)

Inductive exn : Set := IndexError.

Inductive result (A : Type) : Type :=
| Ok (a : A)
| Raise (e : exn).

Arguments Ok {A} a.
Arguments Raise {A} e.

#[global] Instance result_ret : MRet result := fun A a => Ok a.
#[global] Instance result_bind : MBind result := fun A B f m =>
  match m with
  | Ok a => f a
  | Raise e => Raise e
  end.

(** ** class QueryEvaluator *)

Module QueryEvaluator.

(** The two stacks of one evaluator object. *)
Record t := {
  values : list (gset string);
  ops : list string
}.

(** [__init__] *)
Definition init : t := {| values := []; ops := [] |}.

(** [list.pop()] *)
Definition pop {A} (l : list A) : result (A * list A) :=
  match l with
  | x :: l' => Ok (x, l')
  | [] => Raise IndexError
  end.

(** [l[-1]] *)
Definition last_item {A} (l : list A) : result A :=
  match l with
  | x :: _ => Ok x
  | [] => Raise IndexError
  end.

Definition precedence (op : string) : nat :=
  if String.eqb op "AND" || String.eqb op "OR" then 1 else 2.

Definition is_operator (elem : string) : bool :=
  String.eqb elem "AND" || String.eqb elem "OR" || String.eqb elem "NOT".

Definition perform_operation (posting1 posting2 : gset string) (op : string)
  : gset string :=
  if String.eqb op "AND" then posting1 ∩ posting2
  else if String.eqb op "OR" then posting1 ∪ posting2
  else posting2 ∖ posting1.

(** Lines 119-124: the inner [while] met at an operator token [elem].
    Each round pops [val1], [val2], then the operator, and pushes the
    result. The recursion is on the operator stack, which loses one
    entry per round. *)
Fixpoint reduce_while (elem : string) (ops : list string)
    (values : list (gset string)) : result t :=
  match ops with
  | [] => Ok {| values := values; ops := [] |}
  | top :: ops' =>
      if (precedence elem <=? precedence top)%nat then
        '(val1, values1) ← pop values;
        '(val2, values2) ← pop values1;
        let op := top in
        reduce_while elem ops' (perform_operation val1 val2 op :: values2)
      else Ok {| values := values; ops := ops |}
  end.

(** Lines 129-132: the postings a term token stands for. *)
Definition resolve (inverted_index : gmap string (gset string)) (elem : string)
  : gset string :=
  match inverted_index !! elem with
  | Some postings => postings
  | None => ∅
  end.

(** Lines 118-133: the body of [for elem in query]. *)
Definition step (inverted_index : gmap string (gset string)) (self : t)
    (elem : string) : result t :=
  if is_operator elem then
    self' ← reduce_while elem (ops self) (values self);
    Ok {| values := values self'; ops := elem :: ops self' |}
  else
    let postings := resolve inverted_index elem in
    Ok {| values := postings :: values self; ops := ops self |}.

(** Lines 117-133: the main pass. *)
Fixpoint main_pass (inverted_index : gmap string (gset string))
    (query : list string) (self : t) : result t :=
  match query with
  | [] => Ok self
  | elem :: rest =>
      self' ← step inverted_index self elem;
      main_pass inverted_index rest self'
  end.

(** Lines 136-145: the final drain. The operator is popped first, then
    the two values; for ["NOT"] one more operator is popped. *)
Fixpoint drain (ops : list string) (values : list (gset string))
  : result (list (gset string)) :=
  match ops with
  | [] => Ok values
  | first_op :: ops1 =>
      '(val1, values1) ← pop values;
      '(val2, values2) ← pop values1;
      if String.eqb first_op "NOT" then
        match ops1 with
        | [] => Raise IndexError
        | _ :: ops2 =>
            drain ops2 (perform_operation val1 val2 "difference" :: values2)
        end
      else
        drain ops1 (perform_operation val1 val2 first_op :: values2)
  end.

(** The value stack when the drain has emptied the operator stack. *)
Definition run (self : t) (query : list string)
    (inverted_index : gmap string (gset string)) : result (list (gset string)) :=
  self' ← main_pass inverted_index query self;
  drain (ops self') (values self').

(** [evaluate], called on the evaluator [self]. *)
Definition evaluate_on (self : t) (query : list string)
    (inverted_index : gmap string (gset string)) : result (gset string) :=
  values' ← run self query inverted_index;
  last_item values'.

(** [QueryEvaluator().evaluate(query, inverted_index)], as [main] calls
    it: a fresh evaluator for every query. *)
Definition evaluate (query : list string)
    (inverted_index : gmap string (gset string)) : result (gset string) :=
  evaluate_on init query inverted_index.

(** Term tokens and operator tokens of a query. *)
Definition count_terms (query : list string) : nat :=
  length (List.filter (fun e => negb (is_operator e)) query).

Definition count_ops (query : list string) : nat :=
  length (List.filter is_operator query).

End QueryEvaluator.

(** ** The evaluator over a store of set objects

    Python sets are objects: the index holds references to them, and the
    value stack holds references too, some of them to the very objects the
    index owns ([postings = inverted_index[elem]] copies a reference). This
    second model of [QueryEvaluator] keeps the set objects in a store and
    passes references around, so that it can be asked which objects an
    evaluation touches. *)

Module Store.

Definition loc : Type := positive.

(** A computation that reads and extends the store of set objects, and
    may raise. The store survives an exception. *)
Definition M (A : Type) : Type :=
  gmap loc (gset string) -> result A * gmap loc (gset string).

Definition ret {A} (a : A) : M A := fun h => (Ok a, h).

Definition bind {A B} (m : M A) (f : A -> M B) : M B := fun h =>
  match m h with
  | (Ok a, h') => f a h'
  | (Raise e, h') => (Raise e, h')
  end.

Definition lift {A} (r : result A) : M A := fun h => (r, h).

(** The contents of the object a reference points to. *)
Definition deref (h : gmap loc (gset string)) (l : loc) : gset string :=
  default ∅ (h !! l).

Definition read (l : loc) : M (gset string) := fun h => (Ok (deref h l), h).

(** A newly created set object with contents [s]: [set()], and the
    results of [intersection], [union] and [-]. *)
Definition new_set (s : gset string) : M loc := fun h =>
  let l := fresh (dom h) in (Ok l, <[l := s]> h).

(** A computation that leaves every object of the store it starts from
    as it is, whether it returns or raises. *)
Definition preserves {A} (m : M A) : Prop :=
  forall h, h ⊆ snd (m h).

(** References [ls] point to objects with contents [vs]. *)
Definition agree (h : gmap loc (gset string)) (ls : list loc)
    (vs : list (gset string)) : Prop :=
  Forall2 (fun l v => h !! l = Some v) ls vs.

(** The dictionary of references [refs] stands for the index
    [inverted_index] in the store [h]. *)
Definition index_rel (refs : gmap string loc) (h : gmap loc (gset string))
    (inverted_index : gmap string (gset string)) : Prop :=
  forall term,
    match refs !! term with
    | Some l => exists s, h !! l = Some s /\ inverted_index !! term = Some s
    | None => inverted_index !! term = None
    end.

(** The outcome [x] of a computation over the store matches the outcome
    [r] of a computation over set values: both raise the same exception,
    or both return and the results are related by [R] in the final
    store. *)
Definition refines {A B} (R : gmap loc (gset string) -> A -> B -> Prop)
    (x : result A * gmap loc (gset string)) (r : result B) : Prop :=
  match x with
  | (Ok a, h') => exists b, r = Ok b /\ R h' a b
  | (Raise e, _) => r = Raise e
  end.

End Store.

Module QueryEvaluatorRef.
Import Store.

Notation "'let*' p := m 'in' k" := (bind m (fun p => k))
  (at level 10, p pattern, m at level 100, k at level 200, only parsing).

Record t := {
  values : list loc;
  ops : list string
}.

Definition init : t := {| values := []; ops := [] |}.

(** [perform_operation]: the three set methods read their two operands
    and return a new object. *)
Definition perform_operation (posting1 posting2 : loc) (op : string) : M loc :=
  let* s1 := read posting1 in
  let* s2 := read posting2 in
  if String.eqb op "AND" then new_set (s1 ∩ s2)
  else if String.eqb op "OR" then new_set (s1 ∪ s2)
  else new_set (s2 ∖ s1).

Fixpoint reduce_while (elem : string) (ops : list string) (values : list loc)
  : M t :=
  match ops with
  | [] => ret {| values := values; ops := [] |}
  | top :: ops' =>
      if (QueryEvaluator.precedence elem <=? QueryEvaluator.precedence top)%nat then
        let* (val1, values1) := lift (QueryEvaluator.pop values) in
        let* (val2, values2) := lift (QueryEvaluator.pop values1) in
        let op := top in
        let* r := perform_operation val1 val2 op in
        reduce_while elem ops' (r :: values2)
      else ret {| values := values; ops := ops |}
  end.

Definition step (inverted_index : gmap string loc) (self : t) (elem : string)
  : M t :=
  if QueryEvaluator.is_operator elem then
    let* self' := reduce_while elem (ops self) (values self) in
    ret {| values := values self'; ops := elem :: ops self' |}
  else
    let* postings := match inverted_index !! elem with
                     | Some l => ret l
                     | None => new_set ∅
                     end in
    ret {| values := postings :: values self; ops := ops self |}.

Fixpoint main_pass (inverted_index : gmap string loc) (query : list string)
    (self : t) : M t :=
  match query with
  | [] => ret self
  | elem :: rest =>
      let* self' := step inverted_index self elem in
      main_pass inverted_index rest self'
  end.

Fixpoint drain (ops : list string) (values : list loc) : M (list loc) :=
  match ops with
  | [] => ret values
  | first_op :: ops1 =>
      let* (val1, values1) := lift (QueryEvaluator.pop values) in
      let* (val2, values2) := lift (QueryEvaluator.pop values1) in
      if String.eqb first_op "NOT" then
        match ops1 with
        | [] => lift (Raise IndexError)
        | _ :: ops2 =>
            let* r := perform_operation val1 val2 "difference" in
            drain ops2 (r :: values2)
        end
      else
        let* r := perform_operation val1 val2 first_op in
        drain ops1 (r :: values2)
  end.

Definition run (self : t) (query : list string) (inverted_index : gmap string loc)
  : M (list loc) :=
  let* self' := main_pass inverted_index query self in
  drain (ops self') (values self').

Definition evaluate_on (self : t) (query : list string)
    (inverted_index : gmap string loc) : M loc :=
  let* values' := run self query inverted_index in
  lift (QueryEvaluator.last_item values').

Definition evaluate (query : list string) (inverted_index : gmap string loc)
  : M loc :=
  evaluate_on init query inverted_index.

(** The two evaluator states hold the same operators, and the references
    of the first point to the values of the second. *)
Definition state_agree (h : gmap loc (gset string)) (self : t)
    (self' : QueryEvaluator.t) : Prop :=
  agree h (values self) (QueryEvaluator.values self') /\
  ops self = QueryEvaluator.ops self'.

(** The index a store and a dictionary of references stand for. *)
Definition view (inverted_index : gmap string loc) (h : gmap loc (gset string))
  : gmap string (gset string) :=
  omap (fun l => h !! l) inverted_index.

End QueryEvaluatorRef.

(** ** Sample documents and indexes used in the examples *)

Module Samples.
Import InvertedIndex.

(** A document whose only text is one [TEXT] element. *)
Definition text_doc (doc_id content : string) : document :=
  {| DOCID := {| text := doc_id |};
     TITLE := []; HEADING := [];
     TEXT := [Some {| text := content |}] |}.

(** A document with one [TITLE] and one [HEADING] element and no [TEXT]. *)
Definition titled_doc (doc_id title heading : string) : document :=
  {| DOCID := {| text := doc_id |};
     TITLE := [Some {| text := title |}];
     HEADING := [Some {| text := heading |}];
     TEXT := [] |}.

(** Postings [{1,2}] for ["X"], [{2,3}] for ["Y"], [{4}] for ["Z"]. *)
Definition xyz : gmap string (gset string) :=
  <["X" := {["1"; "2"]}]> (<["Y" := {["2"; "3"]}]> (<["Z" := {["4"]}]> ∅)).

(** The same index as three set objects and a dictionary of references
    to them. *)
Definition xyz_store : gmap Store.loc (gset string) :=
  <[1%positive := {["1"; "2"]}]>
    (<[2%positive := {["2"; "3"]}]> (<[3%positive := {["4"]}]> ∅)).

Definition xyz_refs : gmap string Store.loc :=
  <["X" := 1%positive]> (<["Y" := 2%positive]> (<["Z" := 3%positive]> ∅)).

End Samples.

(** ** Shapes of corpora and queries used to state properties *)

Module Corpus.
Import PyStr InvertedIndex.

(** The identifiers of the documents of [documents] for which the scan
    emits the term [T]. *)
Definition doc_ids_with (T : string) (documents : list document) : gset string :=
  list_to_set
    (map (fun d => text (DOCID d))
         (List.filter (fun d => bool_decide (T ∈ terms_of (content_of d)))
                      documents)).

(** A string with no numeric and no alphabetic character. *)
Fixpoint separators_only (s : string) : bool :=
  match s with
  | EmptyString => true
  | String c s' => negb (isnumeric c || isalpha c) && separators_only s'
  end.

(** The documents [init] reads, in the order it reads them. *)
Definition documents_read (files : list (string * list document)) : list document :=
  concat (map snd (List.filter (fun f => negb (String.eqb (fst f) "czech.dtd"))
                               files)).

End Corpus.

Module Infix.
Import QueryEvaluator.

(** ["AND"] or ["OR"]. *)
Definition is_binary (op : string) : bool :=
  String.eqb op "AND" || String.eqb op "OR".

(** An operator followed by a term, with the operator binary and the term
    not an operator literal. *)
Definition clause_ok (c : string * string) : bool :=
  is_binary (fst c) && negb (is_operator (snd c)).

(** The tokens [op1 t1 op2 t2 ...] of a list of clauses. *)
Definition tokens (clauses : list (string * string)) : list string :=
  concat (map (fun c => [fst c; snd c]) clauses).

(** The clauses applied from left to right to the set [acc]. *)
Definition apply_left (inverted_index : gmap string (gset string))
    (acc : gset string) (clauses : list (string * string)) : gset string :=
  fold_left (fun a c => if String.eqb (fst c) "AND"
                        then a ∩ resolve inverted_index (snd c)
                        else a ∪ resolve inverted_index (snd c))
            clauses acc.

(** The evaluator state stands for the single set [acc]: either [acc] is
    the only value and no operator is waiting, or two values and one binary
    operator are waiting whose reduction gives [acc]. *)
Definition pending (self : t) (acc : gset string) : Prop :=
  self = {| values := [acc]; ops := [] |} \/
  exists (p a : gset string) (o : string),
    self = {| values := [p; a]; ops := [o] |} /\
    is_binary o = true /\ perform_operation p a o = acc.

(** The union of the postings of the term tokens of a query. *)
Definition term_postings (inverted_index : gmap string (gset string))
    (query : list string) : gset string :=
  ⋃ map (resolve inverted_index)
        (List.filter (fun e => negb (is_operator e)) query).

End Infix.

(** ** class Query *)

Module Query.

(** A [top] element: its [num] child and its [query] child, which may be
    missing. *)
Record topic := {
  num : InvertedIndex.element;
  query : option InvertedIndex.element
}.

(** The fields of a [Query] object; [queries] and [nums] in the order of
    the Python lists. *)
Record t := {
  queries : list string;
  nums : list string;
  directory : string
}.

(** The fields as [__init__] sets them before [store_queries] runs. *)
Definition init : t := {| queries := []; nums := []; directory := "" |}.

(** [s.split(sep)] for a one-character separator. *)
Fixpoint split (sep : ascii) (s : string) : list string :=
  match s with
  | EmptyString => [EmptyString]
  | String c rest =>
      if Ascii.eqb c sep then EmptyString :: split sep rest
      else match split sep rest with
           | first :: others => String c first :: others
           | [] => [String c EmptyString]
           end
  end.

(** [l[i]] for [i >= 0]. *)
Definition item {A} (l : list A) (i : nat) : result A :=
  match l !! i with
  | Some x => Ok x
  | None => Raise IndexError
  end.

(** Lines 96-104: the body of [for topic in topics]. *)
Definition store_query (self : t) (topic : topic) : result t :=
  match query topic with
  | None => Ok self
  | Some q =>
      let path := split "/"%char (InvertedIndex.text (num topic)) in
      p1 ← item path 1;
      let nums' := nums self ++ [p1] in
      p0 ← item path 0;
      Ok {| queries := queries self ++ [InvertedIndex.text q];
            nums := nums';
            directory := p0 |}
  end.

Fixpoint store_queries (self : t) (topics : list topic) : result t :=
  match topics with
  | [] => Ok self
  | topic :: rest =>
      self' ← store_query self topic;
      store_queries self' rest
  end.

(** The topics that have a [query] child. *)
Definition with_query (topics : list topic) : list topic :=
  List.filter (fun tp => bool_decide (is_Some (query tp))) topics.

(** The text of the [query] child, [""] when there is none. *)
Definition query_text (tp : topic) : string :=
  match query tp with
  | Some q => InvertedIndex.text q
  | None => ""
  end.


End Query.

(** ** main *)

Module Main.
Import PyStr.

(** [s.split()]: the maximal runs of characters that are not white space;
    [word] is the run being read. *)
Fixpoint split_from (s : string) (word : string) : list string :=
  match s with
  | EmptyString => if String.eqb word "" then [] else [word]
  | String c rest =>
      if isspace c then
        if String.eqb word "" then split_from rest ""
        else word :: split_from rest ""
      else split_from rest (word +:+ String c "")
  end.

Definition split (s : string) : list string := split_from s "".

(** [os.path.join(a, b)] with the separator ["/"]. *)
Definition path_join (a b : string) : string :=
  if String.prefix "/" b then b
  else if String.eqb a "" || String.eqb (String.substring (String.length a - 1) 1 a) "/"
       then a +:+ b
       else a +:+ "/" +:+ b.

(** One call of [store], recorded as the path that is opened for writing
    and the set whose elements are written, one per line. The order of the
    lines is the iteration order of the set and is not modelled. *)
Definition write : Type := string * gset string.

(** Lines 221-226: the loop of [main] over [zip(queries, nums)]. It
    returns the calls of [store] made, in order, and how the loop ended. *)
Fixpoint main_loop (directory : string)
    (inverted_index : gmap string (gset string))
    (pairs : list (string * string)) : list write * result unit :=
  match pairs with
  | [] => ([], Ok tt)
  | (query, num) :: rest =>
      match QueryEvaluator.evaluate (split query) inverted_index with
      | Raise e => ([], Raise e)
      | Ok res =>
          let '(writes, outcome) := main_loop directory inverted_index rest in
          ((path_join directory num, res) :: writes, outcome)
      end
  end.

(** [main], given the files of the corpus and the topics of the query
    file. Creating the output directory and the failures of the file system
    are not modelled. *)
Definition main (files : list (string * list InvertedIndex.document))
    (topics : list Query.topic) : list write * result unit :=
  let inverted_index := InvertedIndex.init files in
  match Query.store_queries Query.init topics with
  | Raise e => ([], Raise e)
  | Ok query_holder =>
      main_loop (Query.directory query_holder) inverted_index
                (combine (Query.queries query_holder) (Query.nums query_holder))
  end.

(** A string of white space only. *)
Fixpoint blank (s : string) : bool :=
  match s with
  | EmptyString => true
  | String c rest => isspace c && blank rest
  end.

End Main.

(** * Properties *)

(** ** The scan and the index *)

Section Scan.
Import PyStr InvertedIndex.

Implicit Types (content term doc_id T D : string).
Implicit Types (inverted_index : gmap string (gset string)).

(** [scan] is [emitted] followed by one insertion per emitted term. *)
Lemma scan_emitted content doc_id term inverted_index :
  scan content doc_id term inverted_index =
    (snd (emitted content term),
     fold_left (fun idx t => add_posting t doc_id idx)
               (fst (emitted content term)) inverted_index).
Proof.
  revert term inverted_index.
  induction content as [|char rest IH]; intros term inverted_index; simpl.
  - reflexivity.
  - destruct (isnumeric char || isalpha char); [apply IH|].
    destruct (String.eqb (strip term) ""); [apply IH|].
    rewrite IH. destruct (emitted rest "") as [ts final]. reflexivity.
Qed.

Lemma add_posting_lookup term doc_id inverted_index T :
  add_posting term doc_id inverted_index !! T =
    if decide (term = T)
    then Some (default ∅ (inverted_index !! T) ∪ {[doc_id]})
    else inverted_index !! T.
Proof.
  unfold add_posting.
  destruct (decide (term = T)) as [->|Hne].
  - destruct (inverted_index !! T) as [s|] eqn:E; simpl;
      rewrite lookup_insert_eq; reflexivity.
  - destruct (inverted_index !! term); rewrite lookup_insert_ne; auto.
Qed.

(** The index after inserting [doc_id] for a list of terms, read at any
    key. *)
Lemma fold_add_posting_lookup (ts : list string) doc_id inverted_index T :
  fold_left (fun idx t => add_posting t doc_id idx) ts inverted_index !! T =
    if decide (T ∈ ts)
    then Some (default ∅ (inverted_index !! T) ∪ {[doc_id]})
    else inverted_index !! T.
Proof.
  revert inverted_index.
  induction ts as [|t ts IH]; intros inverted_index; simpl.
  - destruct (decide (T ∈ [])) as [H|_]; [|reflexivity].
    by apply not_elem_of_nil in H.
  - rewrite IH, add_posting_lookup.
    destruct (decide (T ∈ t :: ts)) as [Hin|Hnin].
    + destruct (decide (T ∈ ts)) as [Hts|Hts].
      * destruct (decide (t = T)); simpl; [|reflexivity].
        f_equal. by rewrite <- (assoc_L (∪)), (idemp_L (∪)).
      * apply elem_of_cons in Hin as [->|?]; [|contradiction].
        rewrite decide_True by reflexivity. reflexivity.
    + apply not_elem_of_cons in Hnin as [Hne Hts].
      rewrite (decide_False (P := T ∈ ts)) by assumption.
      rewrite decide_False by congruence. reflexivity.
Qed.

(** What one document adds to the index. *)
Lemma populate_lookup inverted_index (d : document) doc_id T :
  populate_inverted_index inverted_index d doc_id !! T =
    if decide (T ∈ terms_of (content_of d))
    then Some (default ∅ (inverted_index !! T) ∪ {[doc_id]})
    else inverted_index !! T.
Proof.
  unfold populate_inverted_index, terms_of.
  rewrite scan_emitted. simpl. apply fold_add_posting_lookup.
Qed.

Lemma posted_populate inverted_index (d : document) doc_id T D :
  posted (populate_inverted_index inverted_index d doc_id) T D <->
  posted inverted_index T D \/ (T ∈ terms_of (content_of d) /\ D = doc_id).
Proof.
  unfold posted. rewrite populate_lookup.
  destruct (decide (T ∈ terms_of (content_of d))) as [Hin|Hnin].
  - split.
    + intros (s & [= <-] & HD).
      apply elem_of_union in HD as [HD|HD%elem_of_singleton]; [|by right].
      left. destruct (inverted_index !! T) as [s|]; simpl in HD; [eauto|].
      by apply not_elem_of_empty in HD.
    + intros [(s & Hs & HD)|[_ ->]]; eexists; (split; [reflexivity|]).
      * rewrite Hs. simpl. set_solver.
      * set_solver.
  - split; [by left|]. intros [?|[? _]]; [done|contradiction].
Qed.

Lemma no_empty_entry_populate inverted_index (d : document) doc_id :
  no_empty_entry inverted_index ->
  no_empty_entry (populate_inverted_index inverted_index d doc_id).
Proof.
  intros Hinv T s. rewrite populate_lookup.
  destruct (decide (T ∈ terms_of (content_of d))); [|apply Hinv].
  intros [= <-]. set_solver.
Qed.

(** The index built from a list of documents, in terms of what [emitted]
    emits: [D] is in the postings of [T] exactly when some document with
    identifier [D] has [T] among the terms the scan emits for it. *)
Lemma generate_posted (documents : list document) inverted_index T D :
  posted (generate_inverted_index inverted_index documents) T D <->
  posted inverted_index T D \/
  exists d, d ∈ documents /\ text (DOCID d) = D /\ T ∈ terms_of (content_of d).
Proof.
  unfold generate_inverted_index. revert inverted_index.
  induction documents as [|d ds IH]; intros inverted_index; simpl.
  - split; [by left|]. intros [?|(d & Hd & _)]; [done|].
    by apply not_elem_of_nil in Hd.
  - rewrite IH, posted_populate. split.
    + intros [[?|[? ->]]|(d' & ? & ? & ?)]; [by left| |].
      * right. exists d. split; [apply list_elem_of_here|done].
      * right. exists d'. split; [by apply list_elem_of_further|done].
    + intros [?|(d' & [->|Hin]%elem_of_cons & <- & ?)].
      * by left; left.
      * by left; right.
      * right. by exists d'.
Qed.

Lemma generate_no_empty_entry (documents : list document) inverted_index :
  no_empty_entry inverted_index ->
  no_empty_entry (generate_inverted_index inverted_index documents).
Proof.
  unfold generate_inverted_index. revert inverted_index.
  induction documents as [|d ds IH]; intros inverted_index Hinv; simpl; [done|].
  apply IH, no_empty_entry_populate, Hinv.
Qed.

(** A key exists only for a term that some document's scan emitted. *)
Lemma generate_key (documents : list document) T :
  is_Some (generate_inverted_index ∅ documents !! T) <->
  exists d, d ∈ documents /\ T ∈ terms_of (content_of d).
Proof.
  split.
  - intros [s Hs].
    assert (Hne : s <> ∅).
    { eapply generate_no_empty_entry; [|exact Hs]. intros ? ?. by rewrite lookup_empty. }
    apply set_choose_L in Hne as [D HD].
    assert (Hp : posted (generate_inverted_index ∅ documents) T D) by (by exists s).
    apply generate_posted in Hp as [(s' & Hs' & _)|(d & ? & _ & ?)].
    + by rewrite lookup_empty in Hs'.
    + by exists d.
  - intros (d & Hd & HT).
    assert (Hp : posted (generate_inverted_index ∅ documents) T (text (DOCID d))).
    { apply generate_posted. right. by exists d. }
    destruct Hp as (s & -> & _). by eexists.
Qed.

End Scan.

(** ** The accumulator, field boundaries and the end of the buffer *)

Section Boundaries.
Import PyStr InvertedIndex.

#[local] Arguments String.append !_ _ / : simpl nomatch.

Implicit Types (content term a b : string).

Lemma alnum_not_space (c : ascii) :
  isnumeric c || isalpha c = true -> isspace c = false.
Proof.
  destruct c as [[] [] [] [] [] [] [] []]; vm_compute; congruence.
Qed.

(** On the accumulator, [term.strip() == ""] is [term == ""]. *)
Lemma strip_alnum term :
  alnum_only term = true ->
  String.eqb (strip term) "" = String.eqb term "".
Proof.
  destruct term as [|c r]; [reflexivity|]. simpl.
  intros [Hc _]%andb_true_iff. apply alnum_not_space in Hc.
  unfold strip. simpl. rewrite Hc. simpl. rewrite Hc. reflexivity.
Qed.

Lemma alnum_only_snoc term (c : ascii) :
  alnum_only term = true -> isnumeric c || isalpha c = true ->
  alnum_only (term +:+ String c "") = true.
Proof.
  intros Ht Hc. induction term as [|x r IH]; simpl in *.
  - by rewrite Hc.
  - apply andb_true_iff in Ht as [-> Hr]. simpl. by apply IH.
Qed.

(** Scanning two buffers one after the other. *)
Lemma emitted_app a b term :
  emitted (a +:+ b) term =
    ((fst (emitted a term) ++ fst (emitted b (snd (emitted a term))))%list,
     snd (emitted b (snd (emitted a term)))).
Proof.
  revert term. induction a as [|c a IH]; intros term; simpl.
  - by destruct (emitted b term).
  - destruct (isnumeric c || isalpha c); [apply IH|].
    destruct (String.eqb (strip term) ""); [apply IH|].
    rewrite IH. by destruct (emitted a "").
Qed.

(** After a buffer that ends in a separator the accumulator is empty. *)
Lemma emitted_terminated a term :
  alnum_only term = true -> terminated a = true -> a <> "" ->
  snd (emitted a term) = "".
Proof.
  revert term. induction a as [|c a IH]; intros term Hterm Ha Hne; [done|].
  destruct a as [|c' a'].
  - simpl in *. apply negb_true_iff in Ha. rewrite Ha.
    rewrite (strip_alnum _ Hterm).
    destruct (String.eqb_spec term ""); [done|reflexivity].
  - change (terminated (String c (String c' a'))) with (terminated (String c' a')) in Ha.
    change (emitted (String c (String c' a')) term) with
      (if isnumeric c || isalpha c then emitted (String c' a') (term +:+ String c "")
       else if String.eqb (strip term) "" then emitted (String c' a') term
       else let '(ts, final) := emitted (String c' a') "" in (term :: ts, final)).
    destruct (isnumeric c || isalpha c) eqn:Hc.
    + apply IH; [by apply alnum_only_snoc|done|done].
    + destruct (String.eqb (strip term) "").
      * by apply IH.
      * specialize (IH "" eq_refl Ha ltac:(done)).
        destruct (emitted (String c' a') ""). exact IH.
Qed.

Lemma emitted_terminated_empty a :
  terminated a = true -> snd (emitted a "") = "".
Proof.
  intros Ha. destruct a as [|c a]; [reflexivity|].
  by apply emitted_terminated.
Qed.

Lemma terms_of_app a b :
  terminated a = true -> terms_of (a +:+ b) = (terms_of a ++ terms_of b)%list.
Proof.
  intros Ha. unfold terms_of.
  rewrite emitted_app. simpl. by rewrite (emitted_terminated_empty _ Ha).
Qed.

Lemma terminated_app a b :
  terminated a = true -> terminated b = true -> terminated (a +:+ b) = true.
Proof.
  intros Ha Hb. induction a as [|c a IH]; [done|].
  destruct a as [|c' a'].
  - simpl. destruct b; [exact Ha|exact Hb].
  - change (terminated (String c' a' +:+ b) = true). by apply IH.
Qed.

Lemma content_in_order_from (texts : list string) a :
  fold_left (fun content t => content +:+ t) texts a =
    a +:+ content_in_order texts.
Proof.
  unfold content_in_order. revert a.
  induction texts as [|t texts IH]; intros a; simpl.
  - induction a as [|c a IHa]; simpl; congruence.
  - rewrite IH, (IH t).
    induction a as [|c a IHa]; simpl; congruence.
Qed.

(** The terms of a buffer made of separator-terminated field texts are
    the terms of the fields, field after field. *)
Lemma terms_of_content_in_order (texts : list string) :
  Forall (fun t => terminated t = true) texts ->
  terminated (content_in_order texts) = true /\
  terms_of (content_in_order texts) = concat (map terms_of texts).
Proof.
  induction 1 as [|t texts Ht _ [IHt IH]]; [done|].
  unfold content_in_order. simpl. rewrite content_in_order_from.
  split; [by apply terminated_app|].
  rewrite terms_of_app by done. by rewrite IH.
Qed.

(** The specification's tokenizer emits what the scan emits, and then the
    accumulator the scan leaves behind. *)
Lemma spec_tokenize_emitted content term :
  alnum_only term = true ->
  spec_tokenize_from content term =
    (fst (emitted content term) ++
     (if String.eqb (strip (snd (emitted content term))) "" then []
      else [snd (emitted content term)]))%list.
Proof.
  revert term. induction content as [|c rest IH]; intros term Hterm; simpl.
  - reflexivity.
  - destruct (isnumeric c || isalpha c) eqn:Hc.
    { apply IH. by apply alnum_only_snoc. }
    rewrite (strip_alnum _ Hterm).
    destruct (String.eqb_spec term "") as [->|_]; [by apply IH|].
    rewrite IH by done. by destruct (emitted rest "").
Qed.

(** On a buffer that ends in a separator the two agree. *)
Lemma spec_tokenize_terminated content :
  terminated content = true -> spec_tokenize content = terms_of content.
Proof.
  intros H. unfold spec_tokenize, terms_of.
  rewrite spec_tokenize_emitted, (emitted_terminated_empty _ H) by done.
  apply app_nil_r.
Qed.

End Boundaries.

(** ** Index construction: the claims *)

Section IndexClaims.
Import PyStr InvertedIndex Samples.

Lemma elem_of_concat_terms (f : string -> list string) (texts : list string) T :
  T ∈ concat (map f texts) <-> exists t, t ∈ texts /\ T ∈ f t.
Proof.
  induction texts as [|t texts IH]; simpl.
  - split; [by intros ?%not_elem_of_nil|by intros (? & ?%not_elem_of_nil & _)].
  - rewrite elem_of_app, IH. split.
    + intros [?|(t' & ? & ?)].
      * exists t. split; [apply list_elem_of_here|done].
      * exists t'. split; [by apply list_elem_of_further|done].
    + intros (t' & [->|?]%elem_of_cons & ?); [by left|right; by exists t'].
Qed.

(** On a corpus in which the buffer of every document ends in a
    separator, membership in the index is occurrence among the terms of
    the specification's tokenizer. *)
Lemma generate_posted_terminated (documents : list document) (T D : string) :
  Forall (fun d => terminated (content_of d) = true) documents ->
  posted (generate_inverted_index ∅ documents) T D <->
  exists d, d ∈ documents /\ text (DOCID d) = D /\
            T ∈ spec_tokenize (content_of d).
Proof.
  intros Hterm. rewrite generate_posted. split.
  - intros [(s & Hs & _)|(d & Hd & HD & HT)].
    + by rewrite lookup_empty in Hs.
    + exists d. split_and!; [done|done|].
      rewrite spec_tokenize_terminated; [done|].
      by eapply (proj1 (Forall_forall _ _) Hterm).
  - intros (d & Hd & HD & HT). right. exists d. split_and!; [done|done|].
    rewrite <- spec_tokenize_terminated; [done|].
    by eapply (proj1 (Forall_forall _ _) Hterm).
Qed.

(** C1. The index membership invariant fails on the corpus of the
    specification's own end-to-end example: document [D1] has text
    ["cat dog"] and [D2] has text ["dog bird"]. The term ["dog"] occurs in
    the tokenized content of [D1] and ["bird"] in that of [D2], yet the
    index built by [generate_inverted_index] is exactly
    [{cat: {D1}, dog: {D2}}]: [D1] is not in the postings of ["dog"], and
    ["bird"] has no entry. The scan of lines 44-58 inserts a term only
    when it meets a following separator, so the last run of a buffer is
    never inserted. *)
Theorem index_membership_misses_final_term :
  let d1 := text_doc "D1" "cat dog" in
  let d2 := text_doc "D2" "dog bird" in
  let index := generate_inverted_index ∅ [d1; d2] in
  "dog" ∈ spec_tokenize (content_of d1) /\
  "bird" ∈ spec_tokenize (content_of d2) /\
  index = {[ "cat" := {[ "D1" ]}; "dog" := {[ "D2" ]} ]} /\
  ~ posted index "dog" "D1" /\
  index !! "bird" = None.
Proof.
  cbv zeta.
  assert (Hidx : generate_inverted_index ∅
                   [text_doc "D1" "cat dog"; text_doc "D2" "dog bird"] =
                 {[ "cat" := {[ "D1" ]}; "dog" := {[ "D2" ]} ]})
    by (vm_compute; reflexivity).
  rewrite Hidx. split_and!.
  - change (spec_tokenize (content_of (text_doc "D1" "cat dog")))
      with ["cat"; "dog"]. apply list_elem_of_further, list_elem_of_here.
  - change (spec_tokenize (content_of (text_doc "D2" "dog bird")))
      with ["dog"; "bird"]. apply list_elem_of_further, list_elem_of_here.
  - reflexivity.
  - intros (s & Hs & HD).
    rewrite lookup_insert_ne, lookup_singleton_eq in Hs by done.
    injection Hs as <-. by apply elem_of_singleton in HD.
  - reflexivity.
Qed.

(** C5. The scan at the end of the input: on ["a1 b-2!!c3"] the loop
    emits ["a1"], ["b"], ["2"] and stops with ["c3"] still in the
    accumulator, which is then dropped, so the index gets no entry for
    ["c3"]; the tokenizer of the specification yields all four terms.
    The empty input yields no term. *)
Theorem scan_drops_final_run :
  terms_of "" = [] /\
  emitted "a1 b-2!!c3" "" = (["a1"; "b"; "2"], "c3") /\
  spec_tokenize "a1 b-2!!c3" = ["a1"; "b"; "2"; "c3"] /\
  populate_inverted_index ∅ (text_doc "D1" "a1 b-2!!c3") "D1" =
    {[ "a1" := {[ "D1" ]}; "b" := {[ "D1" ]}; "2" := {[ "D1" ]} ]}.
Proof.
  repeat split; vm_compute; reflexivity.
Qed.

(** C6, against the claim as stated. A document with [TITLE] text ["a"]
    and [HEADING] text ["b."]: in the order of the source the buffer is
    ["ab."] and the document contributes the entry ["ab"]; with the
    heading first the buffer is ["b.a"] and it contributes ["b"]. The two
    orders differ for the specification's tokenizer as well. *)
Lemma concatenation_order_matters :
  let d := titled_doc "D1" "a" "b." in
  ["b."; "a"; ""] ≡ₚ field_texts d /\
  populate_inverted_index ∅ d "D1" = {[ "ab" := {[ "D1" ]} ]} /\
  snd (scan (content_in_order ["b."; "a"; ""]) "D1" "" ∅)
    = {[ "b" := {[ "D1" ]} ]} /\
  snd (scan (content_in_order ["b."; "a"; ""]) "D1" "" ∅)
    <> populate_inverted_index ∅ d "D1" /\
  spec_tokenize (content_of d) = ["ab"] /\
  spec_tokenize (content_in_order ["b."; "a"; ""]) = ["b"; "a"].
Proof.
  cbv zeta. split; [apply perm_swap|].
  assert (H1 : populate_inverted_index ∅ (titled_doc "D1" "a" "b.") "D1"
               = {[ "ab" := {[ "D1" ]} ]}) by (vm_compute; reflexivity).
  assert (H2 : snd (scan (content_in_order ["b."; "a"; ""]) "D1" "" ∅)
               = ({[ "b" := {[ "D1" ]} ]} : gmap string (gset string)))
    by (vm_compute; reflexivity).
  rewrite H1, H2. split_and!; try reflexivity.
  intros Heq.
  assert (Hl : ({[ "b" := {[ "D1" ]} ]} : gmap string (gset string)) !! "b"
               = ({[ "ab" := {[ "D1" ]} ]} : gmap string (gset string)) !! "b")
    by (by rewrite Heq).
  rewrite lookup_singleton_eq, lookup_singleton_ne in Hl by done. discriminate.
Qed.

(** C6, amended. When every field text of the document is empty or ends
    in a character that is neither numeric nor alphabetic, the index
    after the document is the same for every order in which the three
    field texts are appended to the buffer. *)
Theorem concatenation_order_terminated
    (inverted_index : gmap string (gset string)) (d : document)
    (doc_id : string) (texts : list string) :
  texts ≡ₚ field_texts d ->
  Forall (fun t => terminated t = true) (field_texts d) ->
  snd (scan (content_in_order texts) doc_id "" inverted_index) =
    populate_inverted_index inverted_index d doc_id.
Proof.
  intros Hperm Hterm.
  assert (Hterm' : Forall (fun t => terminated t = true) texts)
    by (by rewrite Hperm).
  apply map_eq. intros T.
  rewrite populate_lookup, scan_emitted. simpl.
  rewrite fold_add_posting_lookup. fold (terms_of (content_in_order texts)).
  change (content_of d) with (content_in_order (field_texts d)).
  destruct (terms_of_content_in_order _ Hterm) as [_ ->].
  destruct (terms_of_content_in_order _ Hterm') as [_ ->].
  assert (Hiff : T ∈ concat (map terms_of texts) <->
                 T ∈ concat (map terms_of (field_texts d))).
  { rewrite !elem_of_concat_terms. by setoid_rewrite Hperm. }
  destruct (decide (T ∈ concat (map terms_of texts))) as [Hin|Hnin].
  - rewrite decide_True by (by apply Hiff). reflexivity.
  - rewrite decide_False by (by rewrite <- Hiff). reflexivity.
Qed.

Lemma concatenation_order_terminated_witness :
  snd (scan (content_in_order ["b."; "a "; ""]) "D1" "" ∅) =
    populate_inverted_index ∅ (titled_doc "D1" "a " "b.") "D1".
Proof.
  apply concatenation_order_terminated.
  - apply perm_swap.
  - repeat constructor.
Defined.

End IndexClaims.

(** ** The evaluator: basic facts *)

Section Evaluator.
Import QueryEvaluator.

Implicit Types (inverted_index : gmap string (gset string)).
Implicit Types (elem op top : string) (vs : list (gset string)).

Lemma bind_Ok {A B} (f : A -> result B) (a : A) : mbind f (Ok a) = f a.
Proof. reflexivity. Qed.

Lemma bind_inv_Ok {A B} (f : A -> result B) (m : result A) (b : B) :
  mbind f m = Ok b -> exists a, m = Ok a /\ f a = Ok b.
Proof. destruct m as [a|e]; [by exists a|discriminate]. Qed.

Lemma step_term inverted_index (self : t) elem :
  is_operator elem = false ->
  step inverted_index self elem =
    Ok {| values := resolve inverted_index elem :: values self;
          ops := ops self |}.
Proof. unfold step. by intros ->. Qed.

Lemma reduce_while_reduce elem top (os : list string) (v1 v2 : gset string) vs :
  precedence elem <= precedence top ->
  reduce_while elem (top :: os) (v1 :: v2 :: vs) =
    reduce_while elem os (perform_operation v1 v2 top :: vs).
Proof.
  intros H%Nat.leb_le. simpl. by rewrite H.
Qed.

Lemma reduce_while_stop elem top (os : list string) vs :
  precedence top < precedence elem ->
  reduce_while elem (top :: os) vs = Ok {| values := vs; ops := top :: os |}.
Proof.
  intros H%Nat.leb_gt. simpl. by rewrite H.
Qed.

Lemma drain_not (o : string) (os : list string) (v1 v2 : gset string) vs :
  drain ("NOT" :: o :: os) (v1 :: v2 :: vs) = drain os (v2 ∖ v1 :: vs).
Proof. reflexivity. Qed.

Lemma drain_other op (os : list string) (v1 v2 : gset string) vs :
  op <> "NOT" ->
  drain (op :: os) (v1 :: v2 :: vs) =
    drain os (perform_operation v1 v2 op :: vs).
Proof.
  intros H%String.eqb_neq. simpl. by rewrite H.
Qed.

Lemma is_operator_cases elem :
  is_operator elem = true <-> elem = "AND" \/ elem = "OR" \/ elem = "NOT".
Proof.
  unfold is_operator. rewrite !orb_true_iff, !String.eqb_eq. tauto.
Qed.

(** The loop of lines 119-124 only removes operators from the top of the
    stack, one per value it removes, and stops on an empty stack or below
    an operator of lower precedence. *)
Lemma reduce_while_post elem (os : list string) vs (self' : t) :
  reduce_while elem os vs = Ok self' ->
  (exists popped, os = popped ++ ops self' /\
     length vs = length popped + length (values self') /\
     Forall (fun top => precedence elem <= precedence top) popped) /\
  match ops self' with
  | [] => True
  | top :: _ => precedence top < precedence elem
  end.
Proof.
  revert vs. induction os as [|top os IH]; intros vs; simpl.
  - intros [= <-]. simpl. split; [|done]. by exists [].
  - destruct (precedence elem <=? precedence top)%nat eqn:Hp.
    + destruct vs as [|v1 [|v2 vs]]; try discriminate. simpl.
      intros H. apply IH in H as [(popped & -> & Hlen & Hall) Htop].
      split; [|done]. exists (top :: popped). simpl in *.
      split_and!; [done|lia|].
      constructor; [by apply Nat.leb_le|done].
    + intros [= <-]. simpl. split; [|by apply Nat.leb_gt].
      by exists [].
Qed.

(** The operator stack only ever holds operator tokens. *)
Lemma main_pass_ops_operators inverted_index (query : list string) :
  forall self self' : t,
    main_pass inverted_index query self = Ok self' ->
    Forall (fun o => is_operator o = true) (ops self) ->
    Forall (fun o => is_operator o = true) (ops self').
Proof.
  induction query as [|elem query IH]; intros self self'; simpl.
  - by intros [= <-].
  - intros (s & Hs & Hrest)%bind_inv_Ok Hops.
    apply (IH _ _ Hrest). revert Hs. unfold step.
    destruct (is_operator elem) eqn:He.
    + intros (s' & Hs' & [= <-])%bind_inv_Ok. simpl.
      apply reduce_while_post in Hs' as [(popped & Heq & _) _].
      rewrite Heq in Hops. apply Forall_app in Hops as [_ Hops].
      by constructor.
    + by intros [= <-].
Qed.

End Evaluator.

(** ** The evaluator: the claims *)

Section EvaluatorClaims.
Import QueryEvaluator.

Implicit Types (inverted_index : gmap string (gset string)).
Implicit Types (elem op top : string) (vs : list (gset string)).

(** Runs [evaluate] on a query whose term tokens are variables known not
    to be operators. *)
Ltac run_query :=
  unfold evaluate, evaluate_on, run, init; cbn [main_pass]; unfold step;
  repeat match goal with
         | H : is_operator _ = false |- _ => rewrite H
         end;
  simpl.

(** C4. A reduction pops the operator and two values, [v1] first and
    [v2] second, and pushes [v1 ∩ v2] for ["AND"], [v1 ∪ v2] for ["OR"]
    and [v2 ∖ v1] for anything else; this holds for the reductions of
    the main pass and for those of the drain. Hence [X AND Y] evaluates
    to the intersection and [X OR Y] to the union of the two postings. *)
Theorem reduction_step_semantics inverted_index (X Y : string) :
  is_operator X = false -> is_operator Y = false ->
  (forall v1 v2 : gset string, perform_operation v1 v2 "AND" = v1 ∩ v2) /\
  (forall v1 v2 : gset string, perform_operation v1 v2 "OR" = v1 ∪ v2) /\
  (forall (v1 v2 : gset string) op,
      op <> "AND" -> op <> "OR" -> perform_operation v1 v2 op = v2 ∖ v1) /\
  (forall elem top (os : list string) (v1 v2 : gset string) vs,
      precedence elem <= precedence top ->
      reduce_while elem (top :: os) (v1 :: v2 :: vs) =
        reduce_while elem os (perform_operation v1 v2 top :: vs)) /\
  (forall op (os : list string) (v1 v2 : gset string) vs,
      op <> "NOT" ->
      drain (op :: os) (v1 :: v2 :: vs) =
        drain os (perform_operation v1 v2 op :: vs)) /\
  (forall (o : string) (os : list string) (v1 v2 : gset string) vs,
      drain ("NOT" :: o :: os) (v1 :: v2 :: vs) = drain os (v2 ∖ v1 :: vs)) /\
  evaluate [X; "AND"; Y] inverted_index =
    Ok (resolve inverted_index X ∩ resolve inverted_index Y) /\
  evaluate [X; "OR"; Y] inverted_index =
    Ok (resolve inverted_index X ∪ resolve inverted_index Y).
Proof.
  intros HX HY. split_and!.
  - reflexivity.
  - reflexivity.
  - intros v1 v2 op H1%String.eqb_neq H2%String.eqb_neq.
    unfold perform_operation. by rewrite H1, H2.
  - apply reduce_while_reduce.
  - apply drain_other.
  - apply drain_not.
  - run_query. f_equal. apply (comm_L (∩)).
  - run_query. f_equal. apply (comm_L (∪)).
Qed.

Lemma reduction_step_semantics_witness :
  evaluate ["X"; "AND"; "Y"] Samples.xyz = Ok {[ "2" ]} /\
  evaluate ["X"; "OR"; "Y"] Samples.xyz = Ok {[ "1"; "2"; "3" ]}.
Proof.
  destruct (reduction_step_semantics Samples.xyz "X" "Y" eq_refl eq_refl)
    as (_ & _ & _ & _ & _ & _ & Hand & Hor).
  split.
  - rewrite Hand. vm_compute. reflexivity.
  - rewrite Hor. vm_compute. reflexivity.
Defined.

(** C3. ["AND"] and ["OR"] have precedence 1 and ["NOT"] has precedence
    2. At an operator token the main pass reduces while the operator
    stack is non-empty and its top has precedence at least that of the
    token, and then pushes the token. Hence in [X AND Y OR Z] the
    ["AND"] is reduced when ["OR"] arrives, and the result is
    [(postings X ∩ postings Y) ∪ postings Z]. *)
Theorem precedence_and_eager_reduction inverted_index (X Y Z : string) :
  is_operator X = false -> is_operator Y = false -> is_operator Z = false ->
  precedence "AND" = 1 /\ precedence "OR" = 1 /\ precedence "NOT" = 2 /\
  (forall (self : t) elem,
      is_operator elem = true ->
      step inverted_index self elem =
        (self' ← reduce_while elem (ops self) (values self);
         Ok {| values := values self'; ops := elem :: ops self' |})) /\
  (forall elem vs,
      reduce_while elem [] vs = Ok {| values := vs; ops := [] |}) /\
  (forall elem top (os : list string) vs,
      precedence top < precedence elem ->
      reduce_while elem (top :: os) vs =
        Ok {| values := vs; ops := top :: os |}) /\
  (forall elem top (os : list string) (v1 v2 : gset string) vs,
      precedence top >= precedence elem ->
      reduce_while elem (top :: os) (v1 :: v2 :: vs) =
        reduce_while elem os (perform_operation v1 v2 top :: vs)) /\
  main_pass inverted_index [X; "AND"; Y; "OR"] init =
    Ok {| values := [resolve inverted_index X ∩ resolve inverted_index Y];
          ops := ["OR"] |} /\
  evaluate [X; "AND"; Y; "OR"; Z] inverted_index =
    Ok ((resolve inverted_index X ∩ resolve inverted_index Y)
          ∪ resolve inverted_index Z).
Proof.
  intros HX HY HZ. split_and!; try reflexivity.
  - intros self elem H. unfold step. by rewrite H.
  - apply reduce_while_stop.
  - intros. by apply reduce_while_reduce.
  - cbn [main_pass]. unfold step. rewrite HX, HY. simpl.
    do 2 f_equal. f_equal. apply (comm_L (∩)).
  - run_query. f_equal. unfold perform_operation. simpl.
    rewrite (comm_L (∪)). f_equal. apply (comm_L (∩)).
Qed.

Lemma precedence_and_eager_reduction_witness :
  evaluate ["X"; "AND"; "Y"; "OR"; "Z"] Samples.xyz = Ok {[ "2"; "4" ]}.
Proof.
  destruct (precedence_and_eager_reduction Samples.xyz "X" "Y" "Z"
              eq_refl eq_refl eq_refl) as (_ & _ & _ & _ & _ & _ & _ & _ & H).
  rewrite H. vm_compute. reflexivity.
Defined.

(** C2. The drain runs while the operator stack is non-empty: it pops
    [first_op] and then two values [v1], [v2]; for ["NOT"] it pops one
    more operator, discards it, and pushes [v2 ∖ v1]; for ["AND"] and
    ["OR"], the only other entries the operator stack can hold, it pushes
    the intersection, respectively the union, of [v1] and [v2].
    [evaluate] returns the top of the value stack the drain leaves. For the tokens [A AND NOT B] the result is the postings of
    [A] minus those of [B]. *)
Theorem final_drain inverted_index (A B : string) :
  is_operator A = false -> is_operator B = false ->
  (forall vs, drain [] vs = Ok vs) /\
  (forall (o : string) (os : list string) (v1 v2 : gset string) vs,
      drain ("NOT" :: o :: os) (v1 :: v2 :: vs) = drain os (v2 ∖ v1 :: vs)) /\
  (forall (os : list string) (v1 v2 : gset string) vs,
      drain ("AND" :: os) (v1 :: v2 :: vs) = drain os (v1 ∩ v2 :: vs)) /\
  (forall (os : list string) (v1 v2 : gset string) vs,
      drain ("OR" :: os) (v1 :: v2 :: vs) = drain os (v1 ∪ v2 :: vs)) /\
  (forall (self : t) (query : list string),
      evaluate_on self query inverted_index =
        (self' ← main_pass inverted_index query self;
         vs ← drain (ops self') (values self');
         last_item vs)) /\
  (forall (query : list string) (self' : t),
      main_pass inverted_index query init = Ok self' ->
      Forall (fun first_op => first_op = "AND" \/ first_op = "OR"
                              \/ first_op = "NOT") (ops self')) /\
  main_pass inverted_index [A; "AND"; "NOT"; B] init =
    Ok {| values := [resolve inverted_index B; resolve inverted_index A];
          ops := ["NOT"; "AND"] |} /\
  evaluate [A; "AND"; "NOT"; B] inverted_index =
    Ok (resolve inverted_index A ∖ resolve inverted_index B).
Proof.
  intros HA HB. split_and!; try reflexivity.
  - intros self query. unfold evaluate_on, run.
    by destruct (main_pass inverted_index query self).
  - intros query self' H.
    apply main_pass_ops_operators in H; [|constructor].
    eapply Forall_impl; [exact H|]. intros o. apply is_operator_cases.
  - cbn [main_pass]. unfold step. rewrite HA, HB. reflexivity.
  - run_query. reflexivity.
Qed.

Lemma final_drain_witness :
  evaluate ["X"; "AND"; "NOT"; "Y"] Samples.xyz = Ok {[ "1" ]}.
Proof.
  destruct (final_drain Samples.xyz "X" "Y" eq_refl eq_refl)
    as (_ & _ & _ & _ & _ & _ & _ & H).
  rewrite H. vm_compute. reflexivity.
Defined.

(** C7. A term token that is a key of the index resolves to its postings
    set, one that is not a key resolves to the empty set, and the step
    for a term token never raises. Hence [Q AND X] with [Q] absent from
    the index evaluates to the empty set. *)
Theorem unknown_term_resolution inverted_index (Q X : string) :
  is_operator Q = false -> is_operator X = false ->
  inverted_index !! Q = None ->
  (forall elem (postings : gset string),
      inverted_index !! elem = Some postings ->
      resolve inverted_index elem = postings) /\
  (forall elem, inverted_index !! elem = None ->
                resolve inverted_index elem = ∅) /\
  (forall (self : t) elem,
      is_operator elem = false ->
      step inverted_index self elem =
        Ok {| values := resolve inverted_index elem :: values self;
              ops := ops self |}) /\
  evaluate [Q; "AND"; X] inverted_index = Ok ∅.
Proof.
  intros HQ HX Habs. split_and!.
  - intros elem postings H. unfold resolve. by rewrite H.
  - intros elem H. unfold resolve. by rewrite H.
  - intros self elem. apply step_term.
  - run_query. f_equal. unfold perform_operation, resolve. simpl.
    rewrite Habs. apply (right_absorb_L ∅ (∩)).
Qed.

Lemma unknown_term_resolution_witness :
  evaluate ["Q"; "AND"; "X"] Samples.xyz = Ok ∅.
Proof.
  apply (unknown_term_resolution Samples.xyz "Q" "X"); reflexivity.
Defined.

End EvaluatorClaims.

(** ** Stack sizes, operand counts and failure *)

Section Balance.
Import QueryEvaluator.

Implicit Types (inverted_index : gmap string (gset string)).
Implicit Types (elem op top : string) (vs : list (gset string)).
Implicit Types (query os : list string).

(** Induction for loops that pop one or two entries per round. *)
Lemma stack_ind {A} (P : list A -> Prop) :
  P [] ->
  (forall x l, P l -> (forall y l', l = y :: l' -> P l') -> P (x :: l)) ->
  forall l, P l.
Proof.
  intros Hnil Hcons l.
  cut (P l /\ (forall y l', l = y :: l' -> P l')); [tauto|].
  induction l as [|x l [IH1 IH2]].
  - split; [done|discriminate].
  - split; [by apply Hcons|]. by intros y l' [= _ <-].
Qed.

Lemma count_terms_cons elem query :
  count_terms (elem :: query) =
    (if is_operator elem then 0 else 1) + count_terms query.
Proof. unfold count_terms. simpl. by destruct (is_operator elem). Qed.

Lemma count_ops_cons elem query :
  count_ops (elem :: query) =
    (if is_operator elem then 1 else 0) + count_ops query.
Proof. unfold count_ops. simpl. by destruct (is_operator elem). Qed.

Lemma reduce_while_balance elem os vs (self' : t) :
  reduce_while elem os vs = Ok self' ->
  length (values self') + length os = length vs + length (ops self') /\
  (forall o, o ∈ ops self' -> o ∈ os).
Proof.
  intros H. apply reduce_while_post in H as [(popped & -> & Hlen & _) _].
  rewrite length_app. split; [lia|]. intros o Ho. apply elem_of_app. by right.
Qed.

Lemma step_balance inverted_index (self self' : t) elem :
  step inverted_index self elem = Ok self' ->
  length (values self') + length (ops self) + count_ops [elem] =
    length (values self) + length (ops self') + count_terms [elem] /\
  (forall o, o ∈ ops self' -> o ∈ ops self \/ o = elem).
Proof.
  unfold step. rewrite count_ops_cons, count_terms_cons.
  destruct (is_operator elem).
  - intros (s & Hs & [= <-])%bind_inv_Ok. simpl.
    apply reduce_while_balance in Hs as [Hlen Hsub].
    split; [change (count_ops []) with 0; change (count_terms []) with 0; lia|].
    intros o [->|Ho]%elem_of_cons; [by right|left; by apply Hsub].
  - intros [= <-]. simpl.
    split; [change (count_ops []) with 0; change (count_terms []) with 0; lia|].
    by left.
Qed.

(** The main pass keeps [|values| - |ops|] equal to the number of term
    tokens minus the number of operator tokens read so far, and puts
    only tokens of the query on the operator stack. *)
Lemma main_pass_balance inverted_index query (self self' : t) :
  main_pass inverted_index query self = Ok self' ->
  length (values self') + length (ops self) + count_ops query =
    length (values self) + length (ops self') + count_terms query /\
  (forall o, o ∈ ops self' -> o ∈ ops self \/ o ∈ query).
Proof.
  revert self. induction query as [|elem query IH]; intros self; simpl.
  - intros [= <-]. split; [reflexivity|by left].
  - intros (s & Hs & Hrest)%bind_inv_Ok.
    apply step_balance in Hs as [Hlen1 Hsub1].
    apply IH in Hrest as [Hlen2 Hsub2].
    rewrite count_ops_cons, count_terms_cons in *.
    change (count_ops []) with 0 in Hlen1.
    change (count_terms []) with 0 in Hlen1.
    split; [lia|].
    intros o [[?| ->]%Hsub1|?]%Hsub2.
    + by left.
    + right. apply list_elem_of_here.
    + right. by apply list_elem_of_further.
Qed.

(** A round of the drain removes one value; it removes one operator, or
    two when the first is ["NOT"]. *)
Lemma drain_balance os :
  forall vs vs',
    drain os vs = Ok vs' ->
    length vs <= length vs' + length os /\
    ("NOT" ∉ os -> length vs = length vs' + length os).
Proof.
  induction os as [|first_op os1 IH1 IH2] using stack_ind; intros vs vs'.
  - intros [= <-]. simpl. split; [lia|intros _; lia].
  - destruct vs as [|v1 [|v2 vs2]]; try discriminate.
    cbn [drain QueryEvaluator.pop]. rewrite !bind_Ok.
    destruct (String.eqb_spec first_op "NOT") as [->|Hne].
    + destruct os1 as [|o os2]; [discriminate|].
      intros H. apply (IH2 o os2 eq_refl) in H as [H _]. simpl in *.
      split; [lia|]. intros Hnot. exfalso. apply Hnot, list_elem_of_here.
    + intros H. apply IH1 in H as [H1 H2]. simpl in *.
      split; [lia|]. intros Hnot. apply not_elem_of_cons in Hnot as [_ Hnot].
      specialize (H2 Hnot). lia.
Qed.

(** The value stack a successful run leaves. *)
Lemma run_balance inverted_index query vs :
  run init query inverted_index = Ok vs ->
  count_terms query <= length vs + count_ops query /\
  ("NOT" ∉ query -> count_terms query = length vs + count_ops query).
Proof.
  unfold run. intros (s & Hs & Hd)%bind_inv_Ok.
  apply main_pass_balance in Hs as [Hlen Hsub].
  apply drain_balance in Hd as [Hle Heq]. simpl in *.
  split; [lia|]. intros Hnot.
  assert (Hnot' : "NOT" ∉ ops s).
  { intros [Hin|Hin]%Hsub; [by apply not_elem_of_nil in Hin|done]. }
  specialize (Heq Hnot'). lia.
Qed.

(** A query of term tokens only: every token pushes its postings. *)
Lemma main_pass_terms inverted_index query (self : t) :
  Forall (fun e => is_operator e = false) query ->
  main_pass inverted_index query self =
    Ok {| values := rev (map (resolve inverted_index) query) ++ values self;
          ops := ops self |}.
Proof.
  intros H. revert self. induction H as [|e query He _ IH]; intros self; simpl.
  - by destruct self.
  - rewrite (step_term _ _ _ He), bind_Ok, IH. simpl.
    by rewrite <- app_assoc.
Qed.

End Balance.

Section MalformedQueries.
Import QueryEvaluator.

Implicit Types (inverted_index : gmap string (gset string)).
Implicit Types (query : list string).

(** C10. A non-empty query of term tokens only does not raise: the
    operator stack stays empty, the drain leaves the value stack as the
    main pass built it, one value per token, and the postings of the last
    token are returned. *)
Theorem terms_only_query inverted_index query (e : string) :
  Forall (fun x => is_operator x = false) query ->
  last query = Some e ->
  main_pass inverted_index query init =
    Ok {| values := rev (map (resolve inverted_index) query); ops := [] |} /\
  run init query inverted_index =
    Ok (rev (map (resolve inverted_index) query)) /\
  (exists earlier,
      rev (map (resolve inverted_index) query) =
        resolve inverted_index e :: earlier /\
      length earlier = length query - 1) /\
  evaluate query inverted_index = Ok (resolve inverted_index e).
Proof.
  intros Hterms Hlast.
  assert (Hmain : main_pass inverted_index query init =
            Ok {| values := rev (map (resolve inverted_index) query);
                  ops := [] |}).
  { rewrite main_pass_terms by done. simpl. by rewrite app_nil_r. }
  assert (Hrun : run init query inverted_index =
                   Ok (rev (map (resolve inverted_index) query))).
  { unfold run. by rewrite Hmain. }
  apply last_Some in Hlast as [front ->].
  assert (Hrev : rev (map (resolve inverted_index) (front ++ [e])) =
                 resolve inverted_index e :: rev (map (resolve inverted_index) front)).
  { by rewrite map_app, rev_app_distr. }
  split_and!; [done|done| |].
  - eexists. split; [exact Hrev|].
    rewrite length_rev, length_map, length_app. simpl. lia.
  - unfold evaluate, evaluate_on. rewrite Hrun, bind_Ok, Hrev. reflexivity.
Qed.

Lemma terms_only_query_witness :
  run init ["X"; "Y"] Samples.xyz = Ok [{[ "2"; "3" ]}; {[ "1"; "2" ]}] /\
  evaluate ["X"; "Y"] Samples.xyz = Ok {[ "2"; "3" ]}.
Proof.
  destruct (terms_only_query Samples.xyz ["X"; "Y"] "Y") as (_ & Hrun & _ & Hev).
  - repeat constructor.
  - reflexivity.
  - split.
    + rewrite Hrun. vm_compute. reflexivity.
    + rewrite Hev. vm_compute. reflexivity.
Defined.

(** C8, against the claim as stated. The query [X Y] has two operands
    and no operator, yet it does not raise: it returns the postings of
    ["Y"], and two values are on the value stack after the drain. *)
Lemma surplus_operands_not_detected :
  count_terms ["X"; "Y"] = 2 /\ count_ops ["X"; "Y"] = 0 /\
  run init ["X"; "Y"] Samples.xyz = Ok [{[ "2"; "3" ]}; {[ "1"; "2" ]}] /\
  evaluate ["X"; "Y"] Samples.xyz = Ok {[ "2"; "3" ]}.
Proof.
  split_and!; vm_compute; reflexivity.
Qed.

(** C8, amended. [AND X] raises [IndexError], and so does every query
    without ["NOT"] that has at most as many term tokens as operator
    tokens. When [evaluate] returns, the value stack after the drain is
    not empty and the value returned is its top; the stack holds at
    least as many values as the term tokens outnumber the operator
    tokens, and exactly that many when the query has no ["NOT"]. *)
Theorem malformed_query_failure inverted_index query :
  (forall X : string,
      is_operator X = false ->
      evaluate ["AND"; X] inverted_index = Raise IndexError) /\
  ("NOT" ∉ query -> count_terms query <= count_ops query ->
   evaluate query inverted_index = Raise IndexError) /\
  (forall r : gset string,
      evaluate query inverted_index = Ok r ->
      exists rest,
        run init query inverted_index = Ok (r :: rest) /\
        count_terms query <= S (length rest) + count_ops query /\
        ("NOT" ∉ query ->
         count_terms query = S (length rest) + count_ops query)).
Proof.
  assert (Hret : forall r : gset string,
             evaluate query inverted_index = Ok r ->
             exists rest,
               run init query inverted_index = Ok (r :: rest) /\
               count_terms query <= S (length rest) + count_ops query /\
               ("NOT" ∉ query ->
                count_terms query = S (length rest) + count_ops query)).
  { intros r. unfold evaluate, evaluate_on.
    intros (vs & Hrun & Hlast)%bind_inv_Ok.
    destruct vs as [|v rest]; [discriminate|]. injection Hlast as ->.
    exists rest. split; [done|].
    apply run_balance in Hrun. simpl in Hrun. exact Hrun. }
  split_and!; [| |exact Hret].
  - intros X HX. unfold evaluate, evaluate_on, run, init. cbn [main_pass].
    unfold step. rewrite HX. reflexivity.
  - intros Hnot Hcount.
    destruct (evaluate query inverted_index) as [r|[]] eqn:E; [|reflexivity].
    destruct (Hret r eq_refl) as (rest & _ & _ & Heq).
    specialize (Heq Hnot). lia.
Qed.

Lemma malformed_query_failure_witness :
  evaluate ["AND"; "X"] Samples.xyz = Raise IndexError /\
  evaluate ["X"; "AND"; "OR"; "Y"] Samples.xyz = Raise IndexError.
Proof.
  destruct (malformed_query_failure Samples.xyz ["X"; "AND"; "OR"; "Y"])
    as (Hlead & Hcount & _).
  split.
  - apply Hlead. reflexivity.
  - apply Hcount.
    + apply (bool_decide_unpack _). vm_compute. exact I.
    + vm_compute. lia.
Defined.

End MalformedQueries.

(** ** Evaluation and the objects of the index *)

Create HintDb preserves.

Section Frame.
Import Store QueryEvaluatorRef.

Implicit Types (h : gmap loc (gset string)) (refs : gmap string loc).
Implicit Types (elem op : string) (ls : list loc) (os query : list string).

Lemma preserves_ret {A} (a : A) : preserves (ret a).
Proof. intros h. reflexivity. Qed.

Lemma preserves_lift {A} (r : result A) : preserves (lift r).
Proof. intros h. reflexivity. Qed.

Lemma preserves_read (l : loc) : preserves (read l).
Proof. intros h. reflexivity. Qed.

Lemma fresh_unused h : h !! fresh (dom h) = None.
Proof. apply not_elem_of_dom, is_fresh. Qed.

Lemma preserves_new_set (s : gset string) : preserves (new_set s).
Proof. intros h. simpl. apply insert_subseteq, fresh_unused. Qed.

Lemma preserves_bind {A B} (m : M A) (f : A -> M B) :
  preserves m -> (forall a, preserves (f a)) -> preserves (bind m f).
Proof.
  intros Hm Hf h. unfold bind. specialize (Hm h).
  destruct (m h) as [[a|e] h']; simpl in *; [|done].
  etrans; [exact Hm|apply Hf].
Qed.

Hint Resolve preserves_ret preserves_lift preserves_read preserves_new_set
  : preserves.

Lemma preserves_perform_operation (p1 p2 : loc) op :
  preserves (perform_operation p1 p2 op).
Proof.
  unfold perform_operation.
  apply preserves_bind; [auto with preserves|intros s1].
  apply preserves_bind; [auto with preserves|intros s2].
  destruct (String.eqb op "AND"), (String.eqb op "OR"); auto with preserves.
Qed.

Lemma preserves_reduce_while elem os ls : preserves (reduce_while elem os ls).
Proof.
  revert ls. induction os as [|top os IH]; intros ls; simpl.
  - auto with preserves.
  - destruct (QueryEvaluator.precedence elem <=? QueryEvaluator.precedence top)%nat;
      [|auto with preserves].
    apply preserves_bind; [auto with preserves|intros [val1 values1]].
    apply preserves_bind; [auto with preserves|intros [val2 values2]].
    apply preserves_bind; [apply preserves_perform_operation|intros r].
    apply IH.
Qed.

Lemma preserves_step refs (self : t) elem : preserves (step refs self elem).
Proof.
  unfold step. destruct (QueryEvaluator.is_operator elem).
  - apply preserves_bind; [apply preserves_reduce_while|auto with preserves].
  - apply preserves_bind; [|auto with preserves].
    destruct (refs !! elem); auto with preserves.
Qed.

Lemma preserves_main_pass refs query (self : t) :
  preserves (main_pass refs query self).
Proof.
  revert self. induction query as [|elem query IH]; intros self; simpl.
  - auto with preserves.
  - apply preserves_bind; [apply preserves_step|auto].
Qed.

Lemma preserves_drain os : forall ls, preserves (drain os ls).
Proof.
  induction os as [|first_op os1 IH1 IH2] using stack_ind; intros ls;
    cbn [drain].
  - auto with preserves.
  - apply preserves_bind; [auto with preserves|intros [val1 values1]].
    apply preserves_bind; [auto with preserves|intros [val2 values2]].
    destruct (String.eqb first_op "NOT").
    + destruct os1 as [|o os2]; [auto with preserves|].
      apply preserves_bind; [apply preserves_perform_operation|intros r].
      by eapply IH2.
    + apply preserves_bind; [apply preserves_perform_operation|intros r].
      apply IH1.
Qed.

Lemma preserves_evaluate_on (self : t) query refs :
  preserves (evaluate_on self query refs).
Proof.
  unfold evaluate_on, run.
  apply preserves_bind; [|auto with preserves].
  apply preserves_bind; [apply preserves_main_pass|intros self'].
  apply preserves_drain.
Qed.

(** The result of [perform_operation] is a new object. *)
Lemma perform_operation_fresh (p1 p2 : loc) op h :
  perform_operation p1 p2 op h =
    (Ok (fresh (dom h)),
     <[fresh (dom h) :=
         QueryEvaluator.perform_operation (deref h p1) (deref h p2) op]> h).
Proof.
  unfold perform_operation, QueryEvaluator.perform_operation, bind, read.
  by destruct (String.eqb op "AND"), (String.eqb op "OR").
Qed.

(** C9. Evaluation, from any evaluator state and for any token stream,
    whether it returns or raises, leaves every set object of the store
    with the contents it had; so every postings set the index refers to
    is unchanged, and the index the dictionary of references stands for
    is the same before and after. Each reduction result is an object at
    a location that was unused before the reduction. *)
Theorem evaluate_never_mutates_index (self : t) query refs h :
  let h' := snd (evaluate_on self query refs h) in
  (forall (l : loc) (s : gset string), h !! l = Some s -> h' !! l = Some s) /\
  (forall (term : string) (l : loc) (s : gset string),
      refs !! term = Some l -> h !! l = Some s -> h' !! l = Some s) /\
  ((forall (term : string) (l : loc), refs !! term = Some l -> is_Some (h !! l)) ->
   view refs h' = view refs h) /\
  (forall (p1 p2 : loc) op (h0 : gmap loc (gset string)),
      exists l : loc,
        h0 !! l = None /\
        perform_operation p1 p2 op h0 =
          (Ok l, <[l := QueryEvaluator.perform_operation
                           (deref h0 p1) (deref h0 p2) op]> h0)).
Proof.
  intros h'.
  assert (Hsub : h ⊆ h') by apply preserves_evaluate_on.
  assert (Hkeep : forall (l : loc) (s : gset string),
             h !! l = Some s -> h' !! l = Some s).
  { intros l s Hl. by eapply lookup_weaken. }
  split_and!.
  - exact Hkeep.
  - intros term l s _. apply Hkeep.
  - intros Hwf. apply map_eq. intros term. unfold view.
    rewrite !lookup_omap.
    destruct (refs !! term) as [l|] eqn:E; simpl; [|reflexivity].
    destruct (Hwf term l E) as [s Hs]. rewrite Hs. by apply Hkeep.
  - intros p1 p2 op h0. exists (fresh (dom h0)).
    split; [apply fresh_unused|apply perform_operation_fresh].
Qed.

Lemma evaluate_never_mutates_index_witness :
  snd (evaluate ["X"; "AND"; "Y"] Samples.xyz_refs Samples.xyz_store)
    !! 1%positive = Some {[ "1"; "2" ]} /\
  snd (evaluate ["AND"; "X"] Samples.xyz_refs Samples.xyz_store)
    !! 1%positive = Some {[ "1"; "2" ]}.
Proof.
  split.
  - apply (evaluate_never_mutates_index init ["X"; "AND"; "Y"]
             Samples.xyz_refs Samples.xyz_store).
    vm_compute. reflexivity.
  - apply (evaluate_never_mutates_index init ["AND"; "X"]
             Samples.xyz_refs Samples.xyz_store).
    vm_compute. reflexivity.
Defined.

End Frame.

(** ** The evaluator over the store computes what the evaluator over set
    values computes *)

Section Refinement.
Import Store QueryEvaluatorRef.

#[local] Arguments QueryEvaluator.perform_operation : simpl never.

Implicit Types (h : gmap loc (gset string)) (refs : gmap string loc).
Implicit Types (inverted_index : gmap string (gset string)).
Implicit Types (elem op : string) (ls : list loc) (os query : list string).
Implicit Types (vs : list (gset string)).

Lemma agree_weaken h h' ls vs : h ⊆ h' -> agree h ls vs -> agree h' ls vs.
Proof.
  intros Hsub Hag. eapply Forall2_impl; [exact Hag|].
  intros l v Hl. simpl in Hl. by eapply lookup_weaken.
Qed.

Lemma index_rel_weaken refs h h' inverted_index :
  h ⊆ h' -> index_rel refs h inverted_index -> index_rel refs h' inverted_index.
Proof.
  intros Hsub Hrel term. specialize (Hrel term).
  destruct (refs !! term); [|done].
  destruct Hrel as (s & Hs & Hi). exists s. split; [by eapply lookup_weaken|done].
Qed.

Lemma index_rel_view refs h :
  (forall (term : string) (l : loc), refs !! term = Some l -> is_Some (h !! l)) ->
  index_rel refs h (view refs h).
Proof.
  intros Hwf term. unfold view. rewrite lookup_omap.
  destruct (refs !! term) as [l|] eqn:E; simpl; [|done].
  destruct (Hwf term l E) as [s Hs]. by exists s.
Qed.

Lemma deref_Some h (l : loc) (s : gset string) : h !! l = Some s -> deref h l = s.
Proof. unfold deref. by intros ->. Qed.

(** One reduction on references, on operands that are in the store. *)
Lemma perform_operation_agree (p1 p2 : loc) (s1 s2 : gset string) op h ls vs :
  h !! p1 = Some s1 -> h !! p2 = Some s2 -> agree h ls vs ->
  exists (l : loc) h',
    perform_operation p1 p2 op h = (Ok l, h') /\ h ⊆ h' /\
    agree h' (l :: ls) (QueryEvaluator.perform_operation s1 s2 op :: vs).
Proof.
  intros H1 H2 Hag.
  exists (fresh (dom h)),
    (<[fresh (dom h) := QueryEvaluator.perform_operation s1 s2 op]> h).
  assert (Hsub : h ⊆ <[fresh (dom h) :=
                        QueryEvaluator.perform_operation s1 s2 op]> h)
    by apply insert_subseteq, fresh_unused.
  split_and!.
  - by rewrite perform_operation_fresh, (deref_Some _ _ _ H1), (deref_Some _ _ _ H2).
  - exact Hsub.
  - constructor; [apply lookup_insert_eq|by eapply agree_weaken].
Qed.

Lemma reduce_while_refines elem os :
  forall ls vs h,
    agree h ls vs ->
    refines state_agree (reduce_while elem os ls h)
            (QueryEvaluator.reduce_while elem os vs).
Proof.
  induction os as [|top os IH]; intros ls vs h Hag; simpl.
  - eexists. split; [reflexivity|]. by split.
  - destruct (QueryEvaluator.precedence elem <=? QueryEvaluator.precedence top)%nat.
    2:{ eexists. split; [reflexivity|]. by split. }
    destruct Hag as [|p1 s1 ls1 vs1 H1 Hag]; [reflexivity|].
    destruct Hag as [|p2 s2 ls2 vs2 H2 Hag]; [reflexivity|].
    destruct (perform_operation_agree p1 p2 s1 s2 top h ls2 vs2 H1 H2 Hag)
      as (l & h' & Hop & _ & Hag').
    unfold bind, lift. simpl. rewrite Hop. by apply IH.
Qed.

Lemma step_refines refs inverted_index (self : t) (self' : QueryEvaluator.t)
    elem h :
  index_rel refs h inverted_index -> state_agree h self self' ->
  refines state_agree (step refs self elem h)
          (QueryEvaluator.step inverted_index self' elem).
Proof.
  intros Hidx [Hag Hops]. unfold step, QueryEvaluator.step.
  destruct (QueryEvaluator.is_operator elem).
  - rewrite Hops. unfold bind.
    pose proof (reduce_while_refines elem (QueryEvaluator.ops self')
                  _ _ h Hag) as Hr.
    destruct (reduce_while elem (QueryEvaluator.ops self') (values self) h)
      as [[s|e] h']; simpl in *.
    + destruct Hr as (s' & -> & Hag' & Hops'). simpl.
      eexists. split; [reflexivity|]. split; simpl; [done|by f_equal].
    + by rewrite Hr.
  - unfold bind, QueryEvaluator.resolve. specialize (Hidx elem).
    destruct (refs !! elem) as [l|]; simpl.
    + destruct Hidx as (s & Hs & ->).
      eexists. split; [reflexivity|]. split; simpl; [by constructor|done].
    + rewrite Hidx. eexists. split; [reflexivity|]. split; simpl; [|done].
      constructor; [apply lookup_insert_eq|].
      eapply agree_weaken; [|exact Hag]. apply insert_subseteq, fresh_unused.
Qed.

Lemma main_pass_refines refs inverted_index query :
  forall (self : t) (self' : QueryEvaluator.t) h,
    index_rel refs h inverted_index -> state_agree h self self' ->
    refines state_agree (main_pass refs query self h)
            (QueryEvaluator.main_pass inverted_index query self').
Proof.
  induction query as [|elem query IH]; intros self self' h Hidx Hst; simpl.
  - by exists self'.
  - pose proof (step_refines refs inverted_index self self' elem h Hidx Hst) as Hr.
    pose proof (preserves_step refs self elem h) as Hsub.
    unfold bind.
    destruct (step refs self elem h) as [[s|e] h']; simpl in *.
    + destruct Hr as (s' & -> & Hst'). simpl.
      apply IH; [by eapply index_rel_weaken|done].
    + by rewrite Hr.
Qed.

Lemma drain_refines os :
  forall ls vs h,
    agree h ls vs ->
    refines agree (drain os ls h) (QueryEvaluator.drain os vs).
Proof.
  induction os as [|first_op os1 IH1 IH2] using stack_ind; intros ls vs h Hag;
    cbn [drain QueryEvaluator.drain].
  - by exists vs.
  - destruct Hag as [|p1 s1 ls1 vs1 H1 Hag]; [reflexivity|].
    destruct Hag as [|p2 s2 ls2 vs2 H2 Hag]; [reflexivity|].
    unfold bind, lift. simpl.
    destruct (String.eqb first_op "NOT").
    + destruct os1 as [|o os2]; [reflexivity|].
      destruct (perform_operation_agree p1 p2 s1 s2 "difference" h ls2 vs2
                  H1 H2 Hag) as (l & h' & Hop & _ & Hag').
      rewrite perform_operation_fresh in Hop. injection Hop as <- <-.
      exact (IH2 o os2 eq_refl _ _ _ Hag').
    + destruct (perform_operation_agree p1 p2 s1 s2 first_op h ls2 vs2
                  H1 H2 Hag) as (l & h' & Hop & _ & Hag').
      rewrite Hop. by apply IH1.
Qed.

(** The evaluator over the store raises when the evaluator over set
    values raises, and otherwise returns a reference to an object whose
    contents are the set the latter returns. *)
Lemma evaluate_refines refs inverted_index query h :
  index_rel refs h inverted_index ->
  refines (fun h' (l : loc) (s : gset string) => h' !! l = Some s)
          (evaluate query refs h)
          (QueryEvaluator.evaluate query inverted_index).
Proof.
  intros Hidx.
  unfold evaluate, evaluate_on, run, QueryEvaluator.evaluate,
    QueryEvaluator.evaluate_on, QueryEvaluator.run.
  assert (Hinit : state_agree h init QueryEvaluator.init) by (split; [constructor|done]).
  pose proof (main_pass_refines refs inverted_index query _ _ h Hidx Hinit) as Hm.
  unfold bind.
  destruct (main_pass refs query init h) as [[s|e] h1]; simpl in *.
  2:{ by rewrite Hm. }
  destruct Hm as (s' & -> & Hag & Hops). simpl. rewrite Hops.
  pose proof (drain_refines (QueryEvaluator.ops s') _ _ h1 Hag) as Hd.
  destruct (drain (QueryEvaluator.ops s') (values s) h1) as [[ls|e] h2];
    simpl in *.
  2:{ by rewrite Hd. }
  destruct Hd as (vs & -> & Hag2). simpl. unfold lift.
  destruct Hag2 as [|l v ls' vs' Hl _]; simpl; [reflexivity|].
  by exists v.
Qed.

(** The same, for the index that the store and the dictionary of
    references stand for. *)
Lemma evaluate_refines_view refs query h :
  (forall (term : string) (l : loc), refs !! term = Some l -> is_Some (h !! l)) ->
  refines (fun h' (l : loc) (s : gset string) => h' !! l = Some s)
          (evaluate query refs h)
          (QueryEvaluator.evaluate query (view refs h)).
Proof.
  intros Hwf. by apply evaluate_refines, index_rel_view.
Qed.

End Refinement.

(** * Further properties of the index construction *)

Section IndexContent.
Import PyStr InvertedIndex Corpus.

Implicit Types (content term doc_id T D : string).
Implicit Types (inverted_index : gmap string (gset string)).
Implicit Types (documents : list document).

#[local] Arguments String.append !_ _ / : simpl nomatch.

Lemma generate_app inverted_index documents (more : list document) :
  generate_inverted_index inverted_index (documents ++ more) =
    generate_inverted_index (generate_inverted_index inverted_index documents) more.
Proof. apply fold_left_app. Qed.

Lemma elem_of_doc_ids_with T D documents :
  D ∈ doc_ids_with T documents <->
  exists d, d ∈ documents /\ text (DOCID d) = D /\ T ∈ terms_of (content_of d).
Proof.
  unfold doc_ids_with. rewrite elem_of_list_to_set, list_elem_of_In, in_map_iff.
  split.
  - intros (d & HD & Hd). apply filter_In in Hd as [Hd HT].
    exists d. split_and!; [by apply list_elem_of_In|done|].
    by apply bool_decide_eq_true in HT.
  - intros (d & Hd & HD & HT). exists d. split; [done|].
    apply filter_In. split; [by apply list_elem_of_In|].
    by apply bool_decide_eq_true.
Qed.

Lemma doc_ids_with_empty T documents :
  doc_ids_with T documents = ∅ <->
  forall d, d ∈ documents -> T ∉ terms_of (content_of d).
Proof.
  split.
  - intros Hempty d Hd HT.
    assert (Hin : text (DOCID d) ∈ doc_ids_with T documents).
    { apply elem_of_doc_ids_with. by exists d. }
    rewrite Hempty in Hin. by apply not_elem_of_empty in Hin.
  - intros Hnone. apply set_eq. intros D. split.
    + intros (d & Hd & _ & HT)%elem_of_doc_ids_with. by destruct (Hnone d Hd).
    + by intros ?%not_elem_of_empty.
Qed.

Lemma doc_ids_with_cons T (d : document) documents :
  doc_ids_with T (d :: documents) =
    if decide (T ∈ terms_of (content_of d))
    then {[ text (DOCID d) ]} ∪ doc_ids_with T documents
    else doc_ids_with T documents.
Proof.
  unfold doc_ids_with. simpl.
  destruct (decide (T ∈ terms_of (content_of d))) as [Hin|Hnin].
  - by rewrite bool_decide_eq_true_2.
  - by rewrite bool_decide_eq_false_2.
Qed.

(** The entry of a key after [generate_inverted_index]. *)
Lemma generate_lookup_at documents inverted_index T :
  generate_inverted_index inverted_index documents !! T =
    if decide (doc_ids_with T documents = ∅)
    then inverted_index !! T
    else Some (default ∅ (inverted_index !! T) ∪ doc_ids_with T documents).
Proof.
  revert inverted_index.
  induction documents as [|d documents IH]; intros inverted_index.
  - by rewrite decide_True.
  - change (generate_inverted_index inverted_index (d :: documents))
      with (generate_inverted_index
              (populate_inverted_index inverted_index d (text (DOCID d)))
              documents).
    rewrite IH, populate_lookup, doc_ids_with_cons.
    destruct (decide (T ∈ terms_of (content_of d))) as [Hin|Hnin]; [|done].
    rewrite (decide_False (P := _ ∪ _ = ∅)).
    2:{ intros Hempty.
        assert (Hid : text (DOCID d) ∈ ({[text (DOCID d)]} ∪ doc_ids_with T documents
                                         : gset string))
          by (apply elem_of_union; left; by apply elem_of_singleton).
        rewrite Hempty in Hid. by apply not_elem_of_empty in Hid. }
    destruct (decide (doc_ids_with T documents = ∅)) as [->|_]; simpl.
    + f_equal. by rewrite (right_id_L ∅ (∪)).
    + f_equal. by rewrite (assoc_L (∪)).
Qed.

(** X1. The index after [generate_inverted_index], read at any key [T]:
    when no document of the list has [T] among the terms its scan emits,
    the entry is what it was; otherwise the entry exists and holds the old
    postings together with the identifiers of exactly those documents. In
    particular nothing is ever removed: a key stays a key and its postings
    only grow. *)
Theorem generate_lookup documents inverted_index T :
  generate_inverted_index inverted_index documents !! T =
    (if decide (doc_ids_with T documents = ∅)
     then inverted_index !! T
     else Some (default ∅ (inverted_index !! T) ∪ doc_ids_with T documents)) /\
  (forall s : gset string,
      inverted_index !! T = Some s ->
      exists s', generate_inverted_index inverted_index documents !! T = Some s'
                 /\ s ⊆ s').
Proof.
  split; [apply generate_lookup_at|].
  intros s Hs. rewrite generate_lookup_at, Hs. simpl.
  destruct (decide (doc_ids_with T documents = ∅)).
  - by exists s.
  - eexists. split; [reflexivity|]. apply union_subseteq_l.
Qed.

Lemma generate_lookup_witness :
  exists s', generate_inverted_index Samples.xyz
               [Samples.text_doc "7" "X marks "] !! "X" = Some s'
             /\ ({[ "1"; "2" ]} : gset string) ⊆ s'.
Proof.
  apply (generate_lookup [Samples.text_doc "7" "X marks "] Samples.xyz "X").
  reflexivity.
Defined.

(** X2. The index built from the empty index: a term is a key exactly
    when the scan of some document emits it, the postings of a key are
    exactly the identifiers of the documents whose scan emits it, and no
    key maps to the empty set. *)
Theorem generate_from_empty documents T :
  (is_Some (generate_inverted_index ∅ documents !! T) <->
   exists d, d ∈ documents /\ T ∈ terms_of (content_of d)) /\
  (forall s : gset string,
      generate_inverted_index ∅ documents !! T = Some s ->
      s = doc_ids_with T documents /\ s <> ∅).
Proof.
  split; [apply generate_key|].
  intros s. rewrite generate_lookup_at, lookup_empty.
  destruct (decide (doc_ids_with T documents = ∅)) as [|Hne]; [discriminate|].
  simpl. rewrite (left_id_L ∅ (∪)). by intros [= <-].
Qed.

Lemma generate_from_empty_witness :
  is_Some (generate_inverted_index ∅ [Samples.text_doc "D1" "cat dog "] !! "dog").
Proof.
  apply (generate_from_empty [Samples.text_doc "D1" "cat dog "] "dog").
  exists (Samples.text_doc "D1" "cat dog "). split; [apply list_elem_of_here|].
  change (terms_of (content_of (Samples.text_doc "D1" "cat dog ")))
    with ["cat"; "dog"].
  apply list_elem_of_further, list_elem_of_here.
Defined.

(** X3. The index depends only on which documents the list holds, not on
    their order or on how often one is listed. *)
Theorem generate_same_documents documents (documents' : list document)
    inverted_index :
  (forall d, d ∈ documents <-> d ∈ documents') ->
  generate_inverted_index inverted_index documents =
    generate_inverted_index inverted_index documents'.
Proof.
  intros Hsame. apply map_eq. intros T. rewrite !generate_lookup_at.
  assert (Hids : doc_ids_with T documents = doc_ids_with T documents').
  { apply set_eq. intros D. rewrite !elem_of_doc_ids_with.
    split; intros (d & Hd & H); exists d; (split; [by apply Hsame|done]). }
  by rewrite Hids.
Qed.

Lemma generate_same_documents_witness :
  generate_inverted_index ∅
    [Samples.text_doc "D1" "cat dog "; Samples.text_doc "D2" "dog bird ";
     Samples.text_doc "D1" "cat dog "] =
  generate_inverted_index ∅
    [Samples.text_doc "D2" "dog bird "; Samples.text_doc "D1" "cat dog "].
Proof.
  apply generate_same_documents. intros d.
  rewrite !elem_of_cons, !elem_of_nil. tauto.
Defined.

End IndexContent.

Section IndexKeys.
Import PyStr InvertedIndex Corpus.

Implicit Types (content term run rest T : string).
Implicit Types (inverted_index : gmap string (gset string)).

#[local] Arguments String.append !_ _ / : simpl nomatch.

(** The scan only emits non-empty accumulators of numeric and alphabetic
    characters. *)
Lemma emitted_terms_alnum content term :
  alnum_only term = true ->
  Forall (fun t => alnum_only t = true /\ t <> "") (fst (emitted content term)).
Proof.
  revert term. induction content as [|c rest IH]; intros term Hterm; simpl.
  - constructor.
  - destruct (isnumeric c || isalpha c) eqn:Hc.
    { apply IH. by apply alnum_only_snoc. }
    rewrite (strip_alnum _ Hterm).
    destruct (String.eqb_spec term "") as [->|Hne]; [by apply IH|].
    specialize (IH "" eq_refl). destruct (emitted rest "") as [ts final].
    simpl in *. by constructor.
Qed.

Lemma append_assoc_char term (c : ascii) run :
  (term +:+ String c "") +:+ run = term +:+ String c run.
Proof. induction term as [|x term IH]; simpl; congruence. Qed.

Lemma append_empty_r term : term +:+ "" = term.
Proof. induction term as [|x term IH]; simpl; congruence. Qed.

(** Over a run of numeric and alphabetic characters the scan only grows
    the accumulator. *)
Lemma emitted_run run rest term :
  alnum_only run = true ->
  emitted (run +:+ rest) term = emitted rest (term +:+ run).
Proof.
  revert term. induction run as [|c run IH]; intros term Hrun; simpl in *.
  - by rewrite append_empty_r.
  - apply andb_true_iff in Hrun as [-> Hrun].
    rewrite IH by done. by rewrite append_assoc_char.
Qed.

(** X4. How the scan cuts a buffer: a run of numeric and alphabetic
    characters followed by any other character is emitted as one term,
    unless it is empty, and the scan goes on after that character as on a
    new buffer. *)
Theorem terms_of_run run (sep : ascii) rest :
  alnum_only run = true ->
  isnumeric sep || isalpha sep = false ->
  terms_of (run +:+ String sep rest) =
    (if String.eqb run "" then [] else [run]) ++ terms_of rest.
Proof.
  intros Hrun Hsep. unfold terms_of.
  rewrite emitted_run by done. simpl. rewrite Hsep.
  rewrite (strip_alnum _ Hrun).
  destruct (String.eqb_spec run "") as [->|_]; [done|].
  by destruct (emitted rest "").
Qed.

Lemma terms_of_run_witness :
  terms_of "b-2!!c3" = ["b"] ++ terms_of "2!!c3".
Proof.
  apply (terms_of_run "b" "-"%char "2!!c3"); reflexivity.
Defined.

Lemma emitted_separators_only content :
  separators_only content = true -> emitted content "" = ([], "").
Proof.
  induction content as [|c rest IH]; simpl; [done|].
  intros [Hc Hrest]%andb_true_iff. apply negb_true_iff in Hc.
  rewrite Hc. by apply IH.
Qed.

(** X5. A document whose field texts hold no numeric and no alphabetic
    character, an empty document among them, leaves the index as it
    is. *)
Theorem populate_separators_only inverted_index (d : document) (doc_id : string) :
  separators_only (content_of d) = true ->
  populate_inverted_index inverted_index d doc_id = inverted_index.
Proof.
  intros H. unfold populate_inverted_index.
  rewrite scan_emitted, (emitted_separators_only _ H). reflexivity.
Qed.

Lemma populate_separators_only_witness :
  populate_inverted_index Samples.xyz (Samples.text_doc "D9" " -- !! ") "D9"
    = Samples.xyz.
Proof.
  apply populate_separators_only. reflexivity.
Defined.

(** The loop of [init] over the files, from any index. *)
Lemma init_fold (files : list (string * list document)) inverted_index :
  fold_left (fun idx f =>
               if String.eqb (fst f) "czech.dtd" then idx
               else generate_inverted_index idx (snd f))
            files inverted_index =
    generate_inverted_index inverted_index (documents_read files).
Proof.
  revert inverted_index.
  induction files as [|[name documents] files IH]; intros inverted_index.
  - reflexivity.
  - unfold documents_read in *. simpl.
    destruct (String.eqb name "czech.dtd"); simpl; [apply IH|].
    rewrite IH. symmetry. apply generate_app.
Qed.

(** X6. [init] builds the index of the documents of all files, in order,
    leaving out every file named ["czech.dtd"], whatever it holds: with or
    without such a file the index is the same. *)
Theorem init_documents_read (files : list (string * list document)) :
  init files = generate_inverted_index ∅ (documents_read files) /\
  (forall before (documents : list document) after,
      files = before ++ ("czech.dtd", documents) :: after ->
      init files = init (before ++ after)).
Proof.
  split; [apply init_fold|].
  intros before documents after ->. unfold init. rewrite !init_fold.
  f_equal. unfold documents_read. by rewrite !List.filter_app.
Qed.

Lemma init_documents_read_witness :
  init ([("a.xml", [Samples.text_doc "D1" "cat dog "])]
          ++ ("czech.dtd", [Samples.text_doc "D2" "dog bird "]) :: []) =
  init ([("a.xml", [Samples.text_doc "D1" "cat dog "])] ++ []).
Proof.
  eapply init_documents_read. reflexivity.
Defined.

(** X7. Every key of the index [init] builds is a non-empty string of
    numeric and alphabetic characters. Hence a query token that is empty
    or holds any other character is no key: it resolves to the empty set,
    and as a query of its own it evaluates to the empty set. *)
Theorem index_keys_alphanumeric (files : list (string * list document)) :
  (forall T, is_Some (init files !! T) -> alnum_only T = true /\ T <> "") /\
  (forall token : string,
      alnum_only token = false \/ token = "" ->
      QueryEvaluator.resolve (init files) token = ∅ /\
      QueryEvaluator.evaluate [token] (init files) = Ok ∅).
Proof.
  assert (Hkeys : forall T, is_Some (init files !! T) ->
                            alnum_only T = true /\ T <> "").
  { intros T. unfold init. rewrite init_fold.
    intros (d & _ & HT)%generate_key.
    pose proof (emitted_terms_alnum (content_of d) "" eq_refl) as Hall.
    by apply (proj1 (Forall_forall _ _) Hall). }
  split; [exact Hkeys|].
  intros token Htoken.
  assert (Hnone : init files !! token = None).
  { destruct (init files !! token) as [s|] eqn:E; [|done].
    destruct (Hkeys token) as [Ha Hne]; [by eexists|].
    destruct Htoken; congruence. }
  assert (Hres : QueryEvaluator.resolve (init files) token = ∅).
  { unfold QueryEvaluator.resolve. by rewrite Hnone. }
  split; [exact Hres|].
  assert (Hop : QueryEvaluator.is_operator token = false).
  { destruct (QueryEvaluator.is_operator token) eqn:E; [|done].
    apply is_operator_cases in E.
    destruct Htoken as [Ha| ->]; [|by destruct E as [|[|]]].
    destruct E as [->|[->| ->]]; discriminate. }
  unfold QueryEvaluator.evaluate, QueryEvaluator.evaluate_on, QueryEvaluator.run.
  cbn [QueryEvaluator.main_pass]. rewrite (step_term _ _ _ Hop). simpl.
  by rewrite Hres.
Qed.

Lemma index_keys_alphanumeric_witness :
  QueryEvaluator.evaluate ["cat,"]
    (init [("a.xml", [Samples.text_doc "D1" "cat, dog "])]) = Ok ∅.
Proof.
  apply (index_keys_alphanumeric [("a.xml", [Samples.text_doc "D1" "cat, dog "])]).
  left. reflexivity.
Defined.

End IndexKeys.

(** * Further properties of the evaluator *)

Section InfixQueries.
Import QueryEvaluator Infix.

Implicit Types (inverted_index : gmap string (gset string)).
Implicit Types (op lead z y : string) (clauses : list (string * string)).
Implicit Types (acc : gset string) (query rest : list string).

Lemma main_pass_app inverted_index query rest (self : t) :
  main_pass inverted_index (query ++ rest) self =
    (self' ← main_pass inverted_index query self;
     main_pass inverted_index rest self').
Proof.
  revert self. induction query as [|elem query IH]; intros self; simpl.
  - reflexivity.
  - destruct (step inverted_index self elem) as [s|e]; simpl; [apply IH|done].
Qed.

Lemma is_binary_cases op : is_binary op = true -> op = "AND" \/ op = "OR".
Proof.
  unfold is_binary. rewrite orb_true_iff, !String.eqb_eq. tauto.
Qed.

Lemma step_binary inverted_index (self : t) acc op :
  pending self acc -> is_binary op = true ->
  step inverted_index self op = Ok {| values := [acc]; ops := [op] |}.
Proof.
  intros [->|(p & a & o & -> & Ho & <-)] Hop;
    apply is_binary_cases in Hop as [->| ->]; try reflexivity;
    apply is_binary_cases in Ho as [->| ->]; reflexivity.
Qed.

Lemma pending_clause inverted_index acc (c : string * string) :
  clause_ok c = true ->
  pending {| values := [resolve inverted_index (snd c); acc]; ops := [fst c] |}
          (apply_left inverted_index acc [c]).
Proof.
  intros [Hop _]%andb_true_iff. right.
  exists (resolve inverted_index (snd c)), acc, (fst c).
  split_and!; [done|done|].
  unfold apply_left. simpl.
  apply is_binary_cases in Hop as [->| ->]; simpl.
  - apply (comm_L (∩)).
  - apply (comm_L (∪)).
Qed.

(** The main pass over [op1 t1 op2 t2 ...], started in a state that stands
    for [acc], ends in a state that stands for the clauses applied to
    [acc] from left to right. *)
Lemma main_pass_clauses inverted_index clauses :
  Forall (fun c => clause_ok c = true) clauses ->
  forall (self : t) acc,
    pending self acc ->
    exists self',
      main_pass inverted_index (tokens clauses) self = Ok self' /\
      pending self' (apply_left inverted_index acc clauses).
Proof.
  induction 1 as [|c clauses Hc _ IH]; intros self acc Hpend.
  - by exists self.
  - change (tokens (c :: clauses)) with ([fst c; snd c] ++ tokens clauses).
    rewrite main_pass_app. cbn [main_pass].
    pose proof Hc as [Hop Ht]%andb_true_iff. apply negb_true_iff in Ht.
    rewrite (step_binary _ _ _ _ Hpend Hop), bind_Ok.
    rewrite (step_term _ _ _ Ht), !bind_Ok. simpl.
    apply (IH _ _ (pending_clause inverted_index acc c Hc)).
Qed.

Lemma drain_pending (self : t) acc :
  pending self acc -> drain (ops self) (values self) = Ok [acc].
Proof.
  intros [->|(p & a & o & -> & Ho & <-)]; [reflexivity|].
  by apply is_binary_cases in Ho as [->| ->].
Qed.

Lemma main_pass_alternating inverted_index lead clauses :
  is_operator lead = false ->
  Forall (fun c => clause_ok c = true) clauses ->
  exists self',
    main_pass inverted_index (lead :: tokens clauses) init = Ok self' /\
    pending self'
      (apply_left inverted_index (resolve inverted_index lead) clauses).
Proof.
  intros Hlead Hcl. cbn [main_pass]. rewrite (step_term _ _ _ Hlead), bind_Ok.
  apply main_pass_clauses; [done|]. by left.
Qed.

(** X8. A query [t0 op1 t1 ... opn tn] whose operators are ["AND"] and
    ["OR"] and whose other tokens are terms never raises. It is evaluated
    from left to right, ["AND"] and ["OR"] alike: the result is
    [(((t0 op1 t1) op2 t2) ...) opn tn], and it is the only value left on
    the value stack. *)
Theorem evaluate_left_to_right inverted_index lead clauses :
  is_operator lead = false ->
  Forall (fun c => clause_ok c = true) clauses ->
  run init (lead :: tokens clauses) inverted_index =
    Ok [apply_left inverted_index (resolve inverted_index lead) clauses] /\
  evaluate (lead :: tokens clauses) inverted_index =
    Ok (apply_left inverted_index (resolve inverted_index lead) clauses).
Proof.
  intros Hlead Hcl.
  destruct (main_pass_alternating inverted_index lead clauses Hlead Hcl)
    as (self' & Hmain & Hpend).
  assert (Hrun : run init (lead :: tokens clauses) inverted_index =
            Ok [apply_left inverted_index (resolve inverted_index lead) clauses]).
  { unfold run. rewrite Hmain, bind_Ok. by apply drain_pending. }
  split; [exact Hrun|].
  unfold evaluate, evaluate_on. by rewrite Hrun.
Qed.

Lemma evaluate_left_to_right_witness :
  evaluate ["X"; "OR"; "Z"; "AND"; "Y"] Samples.xyz = Ok {[ "2" ]}.
Proof.
  destruct (evaluate_left_to_right Samples.xyz "X" [("OR", "Z"); ("AND", "Y")])
    as [_ H].
  - reflexivity.
  - repeat constructor.
  - etrans; [exact H|]. vm_compute. reflexivity.
Defined.

(** X9. When such a query is followed by [op NOT z], with [op] either
    ["AND"] or ["OR"] and [z] a term, the result is the value of the query
    without the postings of [z]: the operator before ["NOT"] is discarded,
    so [x OR NOT z] and [x AND NOT z] evaluate alike. *)
Theorem evaluate_trailing_not inverted_index lead clauses op z :
  is_operator lead = false ->
  Forall (fun c => clause_ok c = true) clauses ->
  is_binary op = true -> is_operator z = false ->
  evaluate ((lead :: tokens clauses) ++ [op; "NOT"; z]) inverted_index =
    Ok (apply_left inverted_index (resolve inverted_index lead) clauses
          ∖ resolve inverted_index z).
Proof.
  intros Hlead Hcl Hop Hz.
  destruct (main_pass_alternating inverted_index lead clauses Hlead Hcl)
    as (self' & Hmain & Hpend).
  unfold evaluate, evaluate_on, run.
  rewrite main_pass_app, Hmain, bind_Ok. cbn [main_pass].
  rewrite (step_binary _ _ _ _ Hpend Hop), bind_Ok.
  apply is_binary_cases in Hop as [->| ->];
    unfold step; simpl; rewrite Hz; reflexivity.
Qed.

Lemma evaluate_trailing_not_witness :
  evaluate ["X"; "OR"; "NOT"; "Y"] Samples.xyz = Ok {[ "1" ]}.
Proof.
  etrans.
  - apply (evaluate_trailing_not Samples.xyz "X" [] "OR" "Y");
      [reflexivity|constructor|reflexivity|reflexivity].
  - vm_compute. reflexivity.
Defined.



End InfixQueries.

Section EvaluatorInvariants.
Import QueryEvaluator Infix.

Implicit Types (inverted_index : gmap string (gset string)).
Implicit Types (elem op : string) (query os : list string).
Implicit Types (vs extra : list (gset string)) (U : gset string).

Lemma perform_operation_subseteq (v1 v2 : gset string) op U :
  v1 ⊆ U -> v2 ⊆ U -> perform_operation v1 v2 op ⊆ U.
Proof.
  intros H1 H2. unfold perform_operation.
  destruct (String.eqb op "AND"); [|destruct (String.eqb op "OR")].
  - intros x [Hx _]%elem_of_intersection. by apply H1.
  - intros x [Hx|Hx]%elem_of_union; [by apply H1|by apply H2].
  - intros x [Hx _]%elem_of_difference. by apply H2.
Qed.

Lemma reduce_while_bounded elem os U :
  forall vs (self' : t),
    reduce_while elem os vs = Ok self' ->
    Forall (fun v => v ⊆ U) vs -> Forall (fun v => v ⊆ U) (values self').
Proof.
  induction os as [|top os IH]; intros vs self'; simpl.
  - by intros [= <-].
  - destruct (precedence elem <=? precedence top)%nat; [|by intros [= <-]].
    destruct vs as [|v1 [|v2 vs]]; try discriminate. simpl.
    intros H Hall. apply (IH _ _ H).
    apply Forall_cons in Hall as [H1 Hall].
    apply Forall_cons in Hall as [H2 Hall].
    constructor; [by apply perform_operation_subseteq|done].
Qed.

Lemma resolve_term_postings inverted_index query elem :
  elem ∈ query -> is_operator elem = false ->
  resolve inverted_index elem ⊆ term_postings inverted_index query.
Proof.
  intros Hin Hop x Hx. unfold term_postings. apply elem_of_union_list.
  exists (resolve inverted_index elem). split; [|done].
  apply list_elem_of_In, in_map, filter_In.
  split; [by apply list_elem_of_In|by rewrite Hop].
Qed.

Lemma main_pass_bounded inverted_index U query :
  (forall elem, elem ∈ query -> is_operator elem = false ->
                resolve inverted_index elem ⊆ U) ->
  forall self self' : t,
    main_pass inverted_index query self = Ok self' ->
    Forall (fun v => v ⊆ U) (values self) ->
    Forall (fun v => v ⊆ U) (values self').
Proof.
  induction query as [|elem query IH]; intros HU self self'; simpl.
  - by intros [= <-].
  - intros (s & Hs & Hrest)%bind_inv_Ok Hall.
    apply (IH (fun e He => HU e (list_elem_of_further _ _ _ He)) _ _ Hrest).
    revert Hs. unfold step. destruct (is_operator elem) eqn:Hop.
    + intros (s' & Hs' & [= <-])%bind_inv_Ok. simpl.
      by eapply reduce_while_bounded.
    + intros [= <-]. simpl. constructor; [|done].
      apply HU; [apply list_elem_of_here|done].
Qed.

Lemma drain_bounded U os :
  forall vs vs',
    drain os vs = Ok vs' ->
    Forall (fun v => v ⊆ U) vs -> Forall (fun v => v ⊆ U) vs'.
Proof.
  induction os as [|first_op os1 IH1 IH2] using stack_ind; intros vs vs'.
  - by intros [= <-].
  - destruct vs as [|v1 [|v2 vs2]]; try discriminate.
    cbn [drain QueryEvaluator.pop]. rewrite !bind_Ok.
    intros H Hall.
    apply Forall_cons in Hall as [H1 Hall].
    apply Forall_cons in Hall as [H2 Hall].
    destruct (String.eqb first_op "NOT").
    + destruct os1 as [|o os2]; [discriminate|].
      apply (IH2 o os2 eq_refl _ _ H).
      constructor; [by apply perform_operation_subseteq|done].
    + apply (IH1 _ _ H).
      constructor; [by apply perform_operation_subseteq|done].
Qed.

(** X11. Whatever the token stream, a result of [evaluate] holds only
    document identifiers from the postings of the term tokens of the
    query. *)
Theorem evaluate_within_term_postings inverted_index query (r : gset string) :
  evaluate query inverted_index = Ok r ->
  r ⊆ term_postings inverted_index query.
Proof.
  unfold evaluate, evaluate_on, run.
  intros (vs & (s & Hmain & Hdrain)%bind_inv_Ok & Hlast)%bind_inv_Ok.
  assert (Hall : Forall (fun v => v ⊆ term_postings inverted_index query) vs).
  { apply (drain_bounded _ _ _ _ Hdrain).
    apply (main_pass_bounded inverted_index _ query
             (resolve_term_postings inverted_index query) _ _ Hmain).
    constructor. }
  destruct vs as [|v vs]; [discriminate|]. injection Hlast as <-.
  by apply Forall_cons in Hall as [Hv _].
Qed.

Lemma evaluate_within_term_postings_witness :
  ({[ "1" ]} : gset string) ⊆
    term_postings Samples.xyz ["X"; "AND"; "NOT"; "Y"].
Proof.
  apply evaluate_within_term_postings. vm_compute. reflexivity.
Defined.

Lemma reduce_while_frame elem os extra :
  forall vs (self' : t),
    reduce_while elem os vs = Ok self' ->
    reduce_while elem os (vs ++ extra) =
      Ok {| values := values self' ++ extra; ops := ops self' |}.
Proof.
  induction os as [|top os IH]; intros vs self'; simpl.
  - by intros [= <-].
  - destruct (precedence elem <=? precedence top)%nat; [|by intros [= <-]].
    destruct vs as [|v1 [|v2 vs]]; try discriminate. simpl.
    apply IH.
Qed.

Lemma main_pass_frame inverted_index extra query :
  forall self self' : t,
    main_pass inverted_index query self = Ok self' ->
    main_pass inverted_index query
      {| values := values self ++ extra; ops := ops self |} =
      Ok {| values := values self' ++ extra; ops := ops self' |}.
Proof.
  induction query as [|elem query IH]; intros self self'; simpl.
  - by intros [= <-].
  - intros (s & Hs & Hrest)%bind_inv_Ok.
    assert (Hstep : step inverted_index
                      {| values := values self ++ extra; ops := ops self |} elem =
                    Ok {| values := values s ++ extra; ops := ops s |}).
    { revert Hs. unfold step. simpl. destruct (is_operator elem).
      - intros (s' & Hs' & [= <-])%bind_inv_Ok.
        by rewrite (reduce_while_frame _ _ extra _ _ Hs').
      - by intros [= <-]. }
    rewrite Hstep, bind_Ok. by apply IH.
Qed.

Lemma drain_frame extra os :
  forall vs vs', drain os vs = Ok vs' -> drain os (vs ++ extra) = Ok (vs' ++ extra).
Proof.
  induction os as [|first_op os1 IH1 IH2] using stack_ind; intros vs vs'.
  - by intros [= <-].
  - destruct vs as [|v1 [|v2 vs2]]; try discriminate.
    cbn [drain QueryEvaluator.pop app]. rewrite !bind_Ok.
    destruct (String.eqb first_op "NOT").
    + destruct os1 as [|o os2]; [discriminate|].
      apply (IH2 o os2 eq_refl).
    + apply IH1.
Qed.

(** X12. An evaluator object that still has values on its value stack,
    and no operator on its operator stack, when [evaluate] is called on
    it: for every query that a fresh evaluator evaluates without raising,
    it returns the same result, and leaves the old values below the new
    ones. *)
Theorem evaluate_on_used_evaluator inverted_index query extra (r : gset string) :
  evaluate query inverted_index = Ok r ->
  evaluate_on {| values := extra; ops := [] |} query inverted_index = Ok r /\
  exists vs,
    run init query inverted_index = Ok (r :: vs) /\
    run {| values := extra; ops := [] |} query inverted_index =
      Ok (r :: vs ++ extra).
Proof.
  unfold evaluate, evaluate_on.
  intros (vs & Hrun & Hlast)%bind_inv_Ok.
  destruct vs as [|v vs]; [discriminate|]. injection Hlast as ->.
  assert (Hrun' : run {| values := extra; ops := [] |} query inverted_index =
                    Ok (r :: vs ++ extra)).
  { revert Hrun. unfold run. intros (s & Hmain & Hdrain)%bind_inv_Ok.
    pose proof (main_pass_frame inverted_index extra query init s Hmain) as Hf.
    simpl in Hf. rewrite Hf, bind_Ok. simpl.
    by apply (drain_frame extra _ _ _ Hdrain). }
  split; [by rewrite Hrun'|]. by exists vs.
Qed.

Lemma evaluate_on_used_evaluator_witness :
  evaluate_on {| values := [{[ "9" ]}]; ops := [] |} ["X"; "AND"; "Y"] Samples.xyz =
    Ok {[ "2" ]}.
Proof.
  apply (evaluate_on_used_evaluator Samples.xyz ["X"; "AND"; "Y"] [{[ "9" ]}]).
  vm_compute. reflexivity.
Defined.

(** X13. Only the entries of the query's own term tokens matter: two
    indexes that agree on them give the same outcome, result or
    exception. *)
Theorem evaluate_depends_on_query_terms
    inverted_index (inverted_index' : gmap string (gset string)) query :
  (forall elem, elem ∈ query -> is_operator elem = false ->
                inverted_index !! elem = inverted_index' !! elem) ->
  evaluate query inverted_index = evaluate query inverted_index'.
Proof.
  intros Hagree. unfold evaluate, evaluate_on, run.
  assert (Hmain : forall self : t,
             main_pass inverted_index query self =
               main_pass inverted_index' query self).
  { induction query as [|elem query IH]; intros self; simpl; [done|].
    assert (Hstep : step inverted_index self elem = step inverted_index' self elem).
    { unfold step, resolve. destruct (is_operator elem) eqn:Hop; [done|].
      rewrite (Hagree elem); [done|apply list_elem_of_here|done]. }
    rewrite Hstep. destruct (step inverted_index' self elem); simpl; [|done].
    apply IH. intros e He. apply Hagree. by apply list_elem_of_further. }
  by rewrite Hmain.
Qed.

Lemma evaluate_depends_on_query_terms_witness :
  evaluate ["X"; "AND"; "Y"] Samples.xyz =
    evaluate ["X"; "AND"; "Y"] (delete "Z" Samples.xyz).
Proof.
  apply evaluate_depends_on_query_terms. intros elem Hin Hop.
  rewrite lookup_delete_ne; [reflexivity|].
  intros <-. repeat (apply elem_of_cons in Hin as [Hin|Hin]; [discriminate|]).
  by apply elem_of_nil in Hin.
Defined.

End EvaluatorInvariants.

(** * Which object a result is *)

Section ResultObjects.
Import Store QueryEvaluatorRef.

Implicit Types (h : gmap loc (gset string)) (refs : gmap string loc).
Implicit Types (elem e : string) (ls : list loc) (os query : list string).

Lemma ref_step_term refs (self : t) elem h :
  QueryEvaluator.is_operator elem = false ->
  exists (l : loc) h',
    step refs self elem h =
      (Ok {| values := l :: values self; ops := ops self |}, h') /\
    (forall l', refs !! elem = Some l' -> l = l' /\ h' = h).
Proof.
  intros Hop. unfold step. rewrite Hop. unfold bind.
  destruct (refs !! elem) as [l|]; simpl.
  - exists l, h. split; [done|]. by intros l' [= <-].
  - eexists _, _. split; [done|]. discriminate.
Qed.

(** A query of term tokens only pushes one reference per token; the
    reference of a token that is a key is the one the dictionary holds. *)
Lemma ref_main_pass_terms refs query :
  Forall (fun x => QueryEvaluator.is_operator x = false) query ->
  forall (self : t) h,
    exists ls h',
      main_pass refs query self h =
        (Ok {| values := ls ++ values self; ops := ops self |}, h') /\
      length ls = length query /\
      (forall e (l : loc), last query = Some e -> refs !! e = Some l ->
                           head ls = Some l) /\
      ((forall x, x ∈ query -> is_Some (refs !! x)) -> h' = h).
Proof.
  induction 1 as [|elem query Hop _ IH]; intros self h.
  - exists [], h. by destruct self.
  - destruct (ref_step_term refs self elem h Hop) as (p & h1 & Hstep & Hkey).
    destruct (IH {| values := p :: values self; ops := ops self |} h1)
      as (ls & h' & Hmain & Hlen & Hlast & Hsame).
    exists (ls ++ [p]), h'. cbn [main_pass]. unfold bind at 1. rewrite Hstep.
    split_and!.
    + rewrite Hmain. simpl. by rewrite <- app_assoc.
    + rewrite length_app. simpl. lia.
    + intros e l He Hl. destruct query as [|x query].
      * destruct ls; [|discriminate]. simpl in *. injection He as ->.
        by destruct (Hkey l Hl) as [-> _].
      * destruct ls as [|l0 ls]; [discriminate|]. simpl.
        by apply (Hlast e l).
    + intros Hall. rewrite Hsame.
      * destruct (Hall elem) as [l' Hl']; [apply list_elem_of_here|].
        by destruct (Hkey l' Hl').
      * intros x Hx. apply Hall. by apply list_elem_of_further.
Qed.

(** X14. A query of term tokens only whose last token is a key of the
    index returns the very set object the index holds for that token, not
    a copy; when every token is a key, no object is created either. *)
Theorem evaluate_returns_index_object refs h query e (l : loc) :
  Forall (fun x => QueryEvaluator.is_operator x = false) query ->
  last query = Some e -> refs !! e = Some l ->
  fst (evaluate query refs h) = Ok l /\
  ((forall x, x ∈ query -> is_Some (refs !! x)) ->
   snd (evaluate query refs h) = h).
Proof.
  intros Hterms Hlast Hl.
  destruct (ref_main_pass_terms refs query Hterms init h)
    as (ls & h' & Hmain & _ & Hhead & Hsame).
  specialize (Hhead e l Hlast Hl).
  destruct ls as [|l0 ls]; [discriminate|]. injection Hhead as ->.
  unfold evaluate, evaluate_on, run, bind. rewrite Hmain. simpl.
  split; [done|]. intros Hall. by apply Hsame.
Qed.

Lemma evaluate_returns_index_object_witness :
  fst (evaluate ["X"; "Y"] Samples.xyz_refs Samples.xyz_store) = Ok 2%positive.
Proof.
  apply (evaluate_returns_index_object Samples.xyz_refs Samples.xyz_store
           ["X"; "Y"] "Y" 2%positive).
  - repeat constructor.
  - reflexivity.
  - reflexivity.
Defined.

Lemma ref_main_pass_ops refs query :
  forall (self self' : t) h h',
    main_pass refs query self h = (Ok self', h') ->
    ops self <> [] \/ Exists (fun x => QueryEvaluator.is_operator x = true) query ->
    ops self' <> [].
Proof.
  induction query as [|elem query IH]; intros self self' h h'; cbn [main_pass].
  - unfold ret. intros [= <- _] [?|Hex]; [done|]. by apply Exists_nil in Hex.
  - unfold bind at 1.
    destruct (step refs self elem h) as [[s|ex] h1] eqn:Hstep; [|discriminate].
    intros Hmain Hor. apply (IH _ _ _ _ Hmain).
    revert Hstep. unfold step.
    destruct (QueryEvaluator.is_operator elem) eqn:Hop.
    + unfold bind.
      destruct (reduce_while elem (ops self) (values self) h) as [[s'|ex] h2];
        [|discriminate].
      unfold ret. intros [= <- _]. by left.
    + unfold bind.
      destruct (match refs !! elem with
                | Some l => ret l
                | None => new_set ∅
                end h) as [[p|ex] h2]; [|discriminate].
      unfold ret. intros [= <- _]. simpl.
      destruct Hor as [?|Hex]; [by left|].
      apply Exists_cons in Hex as [Hex|Hex]; [congruence|by right].
Qed.

(** When the drain makes at least one round and returns, the top of the
    value stack is an object created during the drain. *)
Lemma ref_drain_fresh os :
  forall ls h ls' h',
    drain os ls h = (Ok ls', h') -> os <> [] ->
    exists (l : loc) rest,
      ls' = l :: rest /\ h !! l = None /\ is_Some (h' !! l).
Proof.
  induction os as [|first_op os1 IH1 IH2] using stack_ind;
    intros ls h ls' h'; [done|].
  intros Hdrain _.
  destruct ls as [|val1 [|val2 values2]]; try discriminate.
  assert (Hnext : forall (os' : list string) (op : string),
             (os' <> [] ->
              forall ls h ls' h',
                drain os' ls h = (Ok ls', h') ->
                exists (l : loc) rest,
                  ls' = l :: rest /\ h !! l = None /\ is_Some (h' !! l)) ->
             bind (perform_operation val1 val2 op)
                  (fun r => drain os' (r :: values2)) h = (Ok ls', h') ->
             exists (l : loc) rest,
               ls' = l :: rest /\ h !! l = None /\ is_Some (h' !! l)).
  { intros os' op IH. unfold bind. rewrite perform_operation_fresh.
    destruct os' as [|o os''].
    - unfold ret. simpl. intros [= <- <-].
      eexists _, _. split_and!; [done|apply fresh_unused|].
      rewrite lookup_insert_eq. by eexists.
    - intros H. apply IH in H as (l & rest & -> & Hnew & Hin); [|done].
      exists l, rest. split_and!; [done| |done].
      destruct (h !! l) as [s|] eqn:E; [|done].
      assert (Hs : <[fresh (dom h) :=
                       QueryEvaluator.perform_operation (deref h val1)
                         (deref h val2) op]> h !! l = Some s).
      { eapply lookup_weaken; [exact E|]. apply insert_subseteq, fresh_unused. }
      congruence. }
  revert Hdrain. cbn [drain]. unfold bind at 1 2, lift. simpl.
  destruct (String.eqb first_op "NOT").
  - destruct os1 as [|o os2]; [discriminate|].
    apply Hnext. intros Hne ls0 h0 ls0' h0' H0.
    by apply (IH2 o os2 eq_refl ls0 h0 ls0' h0' H0).
  - apply Hnext. intros Hne ls0 h0 ls0' h0' H0.
    by apply (IH1 ls0 h0 ls0' h0' H0).
Qed.

(** X15. When the query holds at least one operator token and [evaluate]
    returns, the result is an object that did not exist before the call:
    it is none of the objects of the index, which the store held. *)
Theorem evaluate_result_is_new refs h query (l : loc) h' :
  Exists (fun x => QueryEvaluator.is_operator x = true) query ->
  evaluate query refs h = (Ok l, h') ->
  h !! l = None /\ is_Some (h' !! l) /\
  (forall (term : string) (l' : loc),
      refs !! term = Some l' -> is_Some (h !! l') -> l <> l').
Proof.
  intros Hex. unfold evaluate, evaluate_on, run. unfold bind at 1 2.
  destruct (main_pass refs query init h) as [[s|ex] h1] eqn:Hmain; [|discriminate].
  destruct (drain (ops s) (values s) h1) as [[ls'|ex] h2] eqn:Hdrain;
    [|discriminate].
  pose proof (ref_main_pass_ops refs query init s h h1 Hmain (or_intror Hex)) as Hops.
  destruct (ref_drain_fresh _ _ _ _ _ Hdrain Hops) as (l0 & rest & -> & Hnew & Hin).
  unfold lift. simpl. intros [= <- <-].
  assert (Hl : h !! l0 = None).
  { destruct (h !! l0) as [x|] eqn:E; [|done].
    pose proof (preserves_main_pass refs query init h) as Hsub.
    rewrite Hmain in Hsub. simpl in Hsub.
    pose proof (lookup_weaken _ _ _ _ E Hsub). congruence. }
  split_and!; [done|done|].
  intros term l' _ [x Hx] <-. congruence.
Qed.

Lemma evaluate_result_is_new_witness :
  Samples.xyz_store !! 4%positive = None.
Proof.
  apply (evaluate_result_is_new Samples.xyz_refs Samples.xyz_store
           ["X"; "AND"; "Y"] 4%positive
           (snd (evaluate ["X"; "AND"; "Y"] Samples.xyz_refs Samples.xyz_store))).
  - apply Exists_cons_tl, Exists_cons_hd. reflexivity.
  - vm_compute. reflexivity.
Defined.

End ResultObjects.

(** * The query file and the main loop *)

Section Queries.
Import Query.

Implicit Types (sep : ascii) (s : string) (self : t) (topics : list topic).

Lemma split_not_nil sep s : split sep s <> [].
Proof.
  destruct s as [|c rest]; simpl; [done|].
  destruct (Ascii.eqb c sep); [done|]. by destruct (split sep rest).
Qed.


(** Joining the items with the separator gives the string back. *)
Lemma split_concat sep s :
  String.concat (String sep "") (split sep s) = s.
Proof.
  induction s as [|c rest IH]; simpl; [done|].
  destruct (Ascii.eqb_spec c sep) as [->|Hne].
  - pose proof (split_not_nil sep rest).
    simpl. destruct (split sep rest) as [|x xs] eqn:E; [done|].
    rewrite <- IH. reflexivity.
  - pose proof (split_not_nil sep rest).
    destruct (split sep rest) as [|x [|y ys]] eqn:E; [done| |].
    + simpl in *. by rewrite IH.
    + rewrite <- IH. reflexivity.
Qed.

Lemma store_query_skip self (tp : topic) :
  query tp = None -> store_query self tp = Ok self.
Proof. unfold store_query. by intros ->. Qed.

Lemma store_query_Ok self (tp : topic) self' :
  store_query self tp = Ok self' ->
  match query tp with
  | None => self' = self
  | Some q =>
      exists p0 p1,
        split "/"%char (InvertedIndex.text (num tp)) !! 0 = Some p0 /\
        split "/"%char (InvertedIndex.text (num tp)) !! 1 = Some p1 /\
        self' = {| queries := queries self ++ [InvertedIndex.text q];
                   nums := nums self ++ [p1];
                   directory := p0 |}
  end.
Proof.
  unfold store_query, item. destruct (query tp) as [q|]; [|by intros [= <-]].
  destruct (split "/"%char (InvertedIndex.text (num tp)) !! 1) as [p1|];
    [|discriminate].
  destruct (split "/"%char (InvertedIndex.text (num tp)) !! 0) as [p0|];
    [|discriminate].
  simpl. intros [= <-]. by exists p0, p1.
Qed.

Lemma with_query_cons (tp : topic) topics :
  with_query (tp :: topics) =
    match query tp with
    | Some _ => tp :: with_query topics
    | None => with_query topics
    end.
Proof.
  unfold with_query. simpl. by destruct (query tp).
Qed.

(** X16. When [store_queries] returns, it has appended one query text and
    one name per topic that has a [query] child, in the order of the
    topics, skipping the others: the name is the part of the topic's [num]
    between the first and the second ["/"]. The two lists grow by the same
    length, so that [zip] pairs every query with its own name. The
    directory is the part before the first ["/"] of the last such topic, or
    unchanged when there is none. *)
Theorem store_queries_aligned topics self (self' : t) :
  store_queries self topics = Ok self' ->
  queries self' = queries self ++ map query_text (with_query topics) /\
  (exists names,
      nums self' = nums self ++ names /\
      Forall2 (fun tp name =>
                 split "/"%char (InvertedIndex.text (num tp)) !! 1 = Some name)
              (with_query topics) names) /\
  match last (with_query topics) with
  | Some tp =>
      split "/"%char (InvertedIndex.text (num tp)) !! 0 = Some (directory self')
  | None => directory self' = directory self
  end /\
  (length (queries self) = length (nums self) ->
   length (queries self') = length (nums self')).
Proof.
  revert self. induction topics as [|tp topics IH]; intros self.
  - simpl. intros [= <-]. rewrite app_nil_r. split_and!; [done| |done|done].
    exists []. by rewrite app_nil_r.
  - cbn [store_queries]. intros (s & Hs & Hrest)%bind_inv_Ok.
    apply store_query_Ok in Hs. apply IH in Hrest as (Hq & (names & Hn & Hall) & Hd & Hlen).
    rewrite with_query_cons.
    destruct (query tp) as [q|] eqn:Eq.
    + destruct Hs as (p0 & p1 & H0 & H1 & ->). simpl in *.
      split_and!.
      * assert (Ht : query_text tp = InvertedIndex.text q)
          by (unfold query_text; by rewrite Eq).
        rewrite Hq, <- app_assoc. simpl. by rewrite Ht.
      * exists (p1 :: names). rewrite Hn, <- app_assoc. split; [done|].
        by constructor.
      * rewrite last_cons.
        destruct (last (with_query topics)); [exact Hd|]. by rewrite Hd.
      * intros Hl. apply Hlen. rewrite !length_app. simpl. lia.
    + subst s. split_and!; [done|by exists names|done|done].
Qed.

Lemma store_queries_aligned_witness :
  length (queries {| queries := ["cat AND dog"]; nums := ["q1"];
                     directory := "out" |}) =
  length (nums {| queries := ["cat AND dog"]; nums := ["q1"];
                  directory := "out" |}).
Proof.
  apply (store_queries_aligned
           [ {| num := {| InvertedIndex.text := "out/q1" |};
                query := Some {| InvertedIndex.text := "cat AND dog" |} |};
             {| num := {| InvertedIndex.text := "out/q2" |}; query := None |} ]
           init).
  - reflexivity.
  - reflexivity.
Defined.



End Queries.

Section MainLoop.
Import PyStr Main.

Implicit Types (directory query num : string).
Implicit Types (inverted_index : gmap string (gset string)).
Implicit Types (pairs before after : list (string * string)).




Lemma split_from_blank s : blank s = true -> split_from s "" = [].
Proof.
  induction s as [|c rest IH]; simpl; [done|].
  intros [-> Hrest]%andb_true_iff. simpl. by apply IH.
Qed.

(** X19. A query line that is empty or holds white space only has no
    tokens, its evaluation raises [IndexError], and the loop of [main]
    stops there. *)
Theorem blank_query_raises directory inverted_index query num after :
  blank query = true ->
  split query = [] /\
  QueryEvaluator.evaluate (split query) inverted_index = Raise IndexError /\
  main_loop directory inverted_index ((query, num) :: after) =
    ([], Raise IndexError).
Proof.
  intros Hblank.
  assert (Hsplit : split query = []) by (by apply split_from_blank).
  split_and!; [done|by rewrite Hsplit|].
  simpl. by rewrite Hsplit.
Qed.

Lemma blank_query_raises_witness :
  main_loop "out" Samples.xyz [("  ", "q1"); ("X", "q2")] = ([], Raise IndexError).
Proof.
  apply (blank_query_raises "out" Samples.xyz "  " "q1" [("X", "q2")]).
  reflexivity.
Defined.

End MainLoop.

(** * From the corpus to a result *)

Section EndToEnd.
Import InvertedIndex Corpus.

(** X20. Over the index that [init] builds, a term token stands for the
    identifiers of exactly the documents read whose scan emits that term,
    the empty set when there is none; a query of that one token returns
    this set. *)
Theorem single_term_query (files : list (string * list document)) (T : string) :
  QueryEvaluator.is_operator T = false ->
  QueryEvaluator.resolve (init files) T = doc_ids_with T (documents_read files) /\
  QueryEvaluator.evaluate [T] (init files) =
    Ok (doc_ids_with T (documents_read files)).
Proof.
  intros Hop.
  assert (Hres : QueryEvaluator.resolve (init files) T =
                   doc_ids_with T (documents_read files)).
  { unfold QueryEvaluator.resolve, init.
    rewrite init_fold, generate_lookup_at, lookup_empty.
    destruct (decide (doc_ids_with T (documents_read files) = ∅)) as [->|_];
      [done|].
    simpl. apply (left_id_L ∅ (∪)). }
  split; [exact Hres|].
  unfold QueryEvaluator.evaluate, QueryEvaluator.evaluate_on, QueryEvaluator.run.
  cbn [QueryEvaluator.main_pass]. rewrite (step_term _ _ _ Hop). simpl.
  by rewrite Hres.
Qed.

Lemma single_term_query_witness :
  QueryEvaluator.evaluate ["dog"]
    (init [("a.xml", [Samples.text_doc "D1" "cat dog ";
                      Samples.text_doc "D2" "dog bird "])]) =
    Ok {[ "D1"; "D2" ]}.
Proof.
  etrans.
  - apply (single_term_query
             [("a.xml", [Samples.text_doc "D1" "cat dog ";
                         Samples.text_doc "D2" "dog bird "])] "dog").
    reflexivity.
  - vm_compute. reflexivity.
Defined.

End EndToEnd.
